(** * ScopeSet: the set of canonical SLP scopes of tools/slp/ScopeSet.h

    A shallow embedding of [ola::slp::ScopeSet] and of the parts of the
    C++ standard library it is written with, followed by the properties of
    its set algebra, of its equality and of its wire format.

    - [StdString]: [std::string] as [string], with [operator<] and
      [operator==] as [String.ltb] and [String.eqb].
    - [StdSet]: [std::set<string>] as the list of its elements in the order
      of iteration, with [insert], [find], [operator==] and the two
      algorithms [set_intersection] and [set_difference].
    - [SLPStrings]: the helpers of tools/slp/SLPStrings.h.
    - [ScopeSet]: the class itself.
    - [StdMap] and [lla]: [std::map<int, V>] and the member functions of
      llad/UniverseStore.cpp, over the classes [Universe] and
      [Preferences] taken as parameters. *)

From Stdlib Require Import List String Ascii Bool ZArith Lia.
From Stdlib Require Import Sorted Permutation OrdersEx RelationClasses.
From Stdlib Require Import DecimalString DecimalZ DecimalPos.
Import ListNotations.

Local Open Scope string_scope.
Local Open Scope list_scope.

(** * Part I: the embedding *)

(** ** std::string *)

Module StdString.

(** [operator<] of [std::string] compares lexicographically, character by
    character as unsigned bytes: this is [String.ltb]; [operator==] is
    [String.eqb]. *)
Definition lt (a b : string) : Prop := (a <? b) = true.

End StdString.

(** ** unsigned int *)

(** [unsigned int] is 32 bits wide; a value that does not fit wraps. *)
Definition UINT_MODULUS : Z := 2 ^ 32.

Definition to_uint (z : Z) : Z := z mod UINT_MODULUS.

(** [i++] on an [unsigned int]. *)
Definition uint_incr (i : Z) : Z := to_uint (i + 1).

(** ** std::set<string> *)

Module StdSet.

(** A [std::set<string>] is given by the sequence of its elements as an
    iteration from [begin()] to [end()] visits them.  An iterator is the
    part of that sequence it has not passed yet: [iter != end()] says that
    the part is not empty, [*iter] is its head and [iter++] its tail. *)
Definition t : Type := list string.

(** The invariant of the container: the elements are in strictly
    increasing order of [std::less<string>]. *)
Definition ordered (s : t) : Prop := StronglySorted StdString.lt s.

Fixpoint orderedb (s : t) : bool :=
  match s with
  | [] => true
  | x :: rest => forallb (String.ltb x) rest && orderedb rest
  end.

(** [s.insert(x)]: the container compares with [<] only; an element
    equivalent to [x] (neither below the other) keeps its place and [x] is
    not added. *)
Fixpoint insert (x : string) (s : t) : t :=
  match s with
  | [] => [x]
  | y :: rest =>
      if x <? y then x :: s
      else if y <? x then y :: insert x rest
      else s
  end.

(** [s.insert(first, last)] and the output iterator [inserter(s, s.end())]:
    the elements of a range are inserted one after the other. *)
Definition insert_range (range : list string) (s : t) : t :=
  fold_left (fun acc x => insert x acc) range s.

(** [s.find(x) != s.end()]: the first element not below [x] is the one
    looked for when [x] is not below it either. *)
Fixpoint find (x : string) (s : t) : bool :=
  match s with
  | [] => false
  | y :: rest => if y <? x then find x rest else negb (x <? y)
  end.

(** [a == b] on two sets: the same size and equal elements pairwise. *)
Fixpoint equal (a b : t) : bool :=
  match a, b with
  | [], [] => true
  | x :: a', y :: b' => (x =? y) && equal a' b'
  | _, _ => false
  end.

(** [std::set_intersection(first1, last1, first2, last2, out)]: the
    sequence written to [out]. *)
Fixpoint set_intersection (first1 : list string) : list string -> list string :=
  fix advance2 (first2 : list string) : list string :=
    match first1, first2 with
    | x :: rest1, y :: rest2 =>
        if x <? y then set_intersection rest1 first2
        else if y <? x then advance2 rest2
        else x :: set_intersection rest1 rest2
    | _, _ => []
    end.

(** [std::set_difference(first1, last1, first2, last2, out)]: the sequence
    written to [out]; what is left of the first range when the second one
    ends is copied. *)
Fixpoint set_difference (first1 : list string) : list string -> list string :=
  fix advance2 (first2 : list string) : list string :=
    match first1, first2 with
    | x :: rest1, y :: rest2 =>
        if x <? y then x :: set_difference rest1 first2
        else if y <? x then advance2 rest2
        else set_difference rest1 rest2
    | _, _ => first1
    end.

End StdSet.

(** ** tools/slp/SLPStrings.h *)

Module SLPStrings.

(** Whitespace: space, tab, line feed, vertical tab, form feed and
    carriage return. *)
Definition is_space (c : ascii) : bool :=
  existsb (Ascii.eqb c) [" "; "009"; "010"; "011"; "012"; "013"]%char.

(** Case folding of one character: the letters A to Z go to a to z. *)
Definition to_lower (c : ascii) : ascii :=
  let n := N_of_ascii c in
  if (65 <=? n)%N && (n <=? 90)%N then ascii_of_N (n + 32) else c.

Fixpoint fold_case (s : string) : string :=
  match s with
  | EmptyString => EmptyString
  | String c rest => String (to_lower c) (fold_case rest)
  end.

Fixpoint strip_leading (s : string) : string :=
  match s with
  | EmptyString => EmptyString
  | String c rest => if is_space c then strip_leading rest else s
  end.

Fixpoint strip_trailing (s : string) : string :=
  match s with
  | EmptyString => EmptyString
  | String c rest =>
      match strip_trailing rest with
      | EmptyString => if is_space c then EmptyString else String c EmptyString
      | kept => String c kept
      end
  end.

(** Modelled from the spec: [SLPGetCanonicalString] is declared in
    tools/slp/SLPStrings.h, which is not among the sources.  The spec gives
    the canonical form of a scope token as case-folded with leading and
    trailing whitespace stripped.  The function returns a string: the
    constructors of [ScopeSet] hand its value to [set<string>::insert]. *)
Definition SLPGetCanonicalString (str : string) : string :=
  strip_trailing (strip_leading (fold_case str)).

(** A string has nothing to strip in front when it is empty or starts
    with a character that is not whitespace. *)
Definition starts_clean (s : string) : bool :=
  match s with
  | EmptyString => true
  | String c _ => negb (is_space c)
  end.

(** A token is canonical when canonicalizing it changes nothing. *)
Definition canonical (token : string) : Prop :=
  SLPGetCanonicalString token = token.

Definition canonicalb (token : string) : bool :=
  SLPGetCanonicalString token =? token.

End SLPStrings.

Import SLPStrings.

(** ** class ScopeSet *)

Record ScopeSet : Type := { m_scopes : StdSet.t }.

(** [ScopeSet()]. *)
Definition ScopeSet_default : ScopeSet := {| m_scopes := [] |}.

(** [ScopeSet(const set<string> &scopes)]. *)
Definition ScopeSet_of_set (scopes : StdSet.t) : ScopeSet :=
  {| m_scopes :=
       fold_left
         (fun acc scope => StdSet.insert (SLPGetCanonicalString scope) acc)
         scopes [] |}.

(** [ScopeSet(const vector<string> &scopes)]. *)
Definition ScopeSet_of_vector (scopes : list string) : ScopeSet :=
  {| m_scopes :=
       fold_left
         (fun acc scope => StdSet.insert (SLPGetCanonicalString scope) acc)
         scopes [] |}.

Definition empty (self : ScopeSet) : Z :=
  match m_scopes self with
  | [] => 1
  | _ :: _ => 0
  end.

Definition size (self : ScopeSet) : Z :=
  to_uint (Z.of_nat (List.length (m_scopes self))).

Definition Contains (self : ScopeSet) (scope : string) : bool :=
  StdSet.find scope (m_scopes self).

Fixpoint Intersects_loop (iter1 : list string) : list string -> bool :=
  fix advance2 (iter2 : list string) : bool :=
    match iter1, iter2 with
    | x :: rest1, y :: rest2 =>
        if x =? y then true
        else if x <? y then Intersects_loop rest1 iter2
        else advance2 rest2
    | _, _ => false
    end.

Definition Intersects (self other : ScopeSet) : bool :=
  Intersects_loop (m_scopes self) (m_scopes other).

Fixpoint IntersectionCount_loop (iter1 : list string)
  : list string -> Z -> Z :=
  fix advance2 (iter2 : list string) (i : Z) : Z :=
    match iter1, iter2 with
    | x :: rest1, y :: rest2 =>
        if x =? y then IntersectionCount_loop rest1 rest2 (uint_incr i)
        else if x <? y then IntersectionCount_loop rest1 iter2 i
        else advance2 rest2 i
    | _, _ => i
    end.

Definition IntersectionCount (self other : ScopeSet) : Z :=
  IntersectionCount_loop (m_scopes self) (m_scopes other) 0.

Definition Intersection (self other : ScopeSet) : ScopeSet :=
  let intersection :=
    StdSet.insert_range
      (StdSet.set_intersection (m_scopes self) (m_scopes other)) [] in
  ScopeSet_of_set intersection.

Definition Difference (self other : ScopeSet) : ScopeSet :=
  let difference :=
    StdSet.insert_range
      (StdSet.set_difference (m_scopes self) (m_scopes other)) [] in
  ScopeSet_of_set difference.

(** The object that a member function is given as [other]: [*this] itself,
    or an object of its own. *)
Inductive operand : Type :=
| This
| Other (other : ScopeSet).

(** The loop of [DifferenceUpdate].  [m_scopes] is kept as the elements
    [passed] by [iter1] followed by those from [iter1] on;
    [m_scopes.erase(iter1++)] drops the element under [iter1] and leaves
    the iterator on the next one.  [iter2] runs over [other.m_scopes].
    When [other] is [*this] ([same_object]) that is the container being
    changed: two equal elements of one set are one node, so on equal
    elements [m_scopes.erase(iter1++)] frees the node [iter2] is on and
    [iter2++] then advances an iterator to a freed node, which is
    undefined: the loop gives nothing.  Otherwise it gives [m_scopes] and
    [difference] as they are when it ends. *)
Fixpoint DifferenceUpdate_loop (same_object : bool) (iter1 : list string)
  : list string -> list string -> StdSet.t -> option (StdSet.t * StdSet.t) :=
  fix advance2 (iter2 : list string) (passed : list string)
      (difference : StdSet.t) : option (StdSet.t * StdSet.t) :=
    match iter1, iter2 with
    | x :: rest1, y :: rest2 =>
        if x =? y then
          if same_object then None
          else
            DifferenceUpdate_loop same_object rest1 rest2 passed
                                  (StdSet.insert x difference)
        else if x <? y then
          DifferenceUpdate_loop same_object rest1 iter2 (passed ++ [x])
                                difference
        else advance2 rest2 passed difference
    | _, _ => Some (passed ++ iter1, difference)
    end.

(** A method that changes [*this] gives the [ScopeSet] after the call next
    to what it returns, or nothing when the call is undefined. *)
Definition DifferenceUpdate (self : ScopeSet) (other : operand)
  : option (ScopeSet * ScopeSet) :=
  let run :=
    match other with
    | This =>
        DifferenceUpdate_loop true (m_scopes self) (m_scopes self) [] []
    | Other object =>
        DifferenceUpdate_loop false (m_scopes self) (m_scopes object) [] []
    end in
  match run with
  | Some (scopes, difference) =>
      Some (ScopeSet_of_set difference, {| m_scopes := scopes |})
  | None => None
  end.

Definition Update (self other : ScopeSet) : ScopeSet :=
  {| m_scopes := StdSet.insert_range (m_scopes other) (m_scopes self) |}.

(** [operator==]. *)
Definition ScopeSet_eq (self other : ScopeSet) : bool :=
  StdSet.equal (m_scopes self) (m_scopes other).

(** [operator!=]: on two sets it is the negation of [==]. *)
Definition ScopeSet_neq (self other : ScopeSet) : bool :=
  negb (StdSet.equal (m_scopes self) (m_scopes other)).

(** [ScopeSet(const ScopeSet &other)] and [operator=] copy the container. *)
Definition ScopeSet_copy (other : ScopeSet) : ScopeSet :=
  {| m_scopes := m_scopes other |}.

(** The invariant of the class: the container is ordered and holds
    canonical tokens only. *)
Definition ScopeSet_ok (s : ScopeSet) : Prop :=
  StdSet.ordered (m_scopes s) /\ Forall canonical (m_scopes s).

Definition ScopeSet_okb (s : ScopeSet) : bool :=
  StdSet.orderedb (m_scopes s) && forallb canonicalb (m_scopes s).

(** ** The wire format *)

Inductive ScopeError : Type :=
| InvalidScopeToken
| MalformedEscapeSequence.

Inductive result (A : Type) : Type :=
| Ok (a : A)
| Error (e : ScopeError).

Arguments Ok {A} a.
Arguments Error {A} e.

Definition bind {A B : Type} (r : result A) (k : A -> result B) : result B :=
  match r with
  | Ok a => k a
  | Error e => Error e
  end.

Notation "x <- r ;; k" := (bind r (fun x => k))
  (at level 61, r at next level, right associativity).

Definition delimiter : ascii := ","%char.
Definition escape_char : ascii := "092"%char.

Definition reserved (c : ascii) : bool :=
  Ascii.eqb c delimiter || Ascii.eqb c escape_char.

(** Modelled from the spec: the escaping helper of tools/slp/SLPStrings.h
    is not among the sources.  The spec escapes every literal delimiter or
    escape character of a token by putting the escape character before
    it. *)
Fixpoint escape_token (token : string) : string :=
  match token with
  | EmptyString => EmptyString
  | String c rest =>
      if reserved c then String escape_char (String c (escape_token rest))
      else String c (escape_token rest)
  end.

(** Modelled from the spec: [AsEscapedString] is declared in ScopeSet.h and
    defined in tools/slp/ScopeSet.cpp, which is not among the sources.  The
    spec's Encode joins the escaped tokens of the set, in the order of the
    set, with the delimiter. *)
Definition AsEscapedString (self : ScopeSet) : string :=
  String.concat (String delimiter EmptyString)
                (map escape_token (m_scopes self)).

(** [c] is put in front of the token being read. *)
Definition push (c : ascii) (tokens : list string) : list string :=
  match tokens with
  | [] => [String c EmptyString]
  | token :: rest => String c token :: rest
  end.

(** Modelled from the spec: the text is split at every delimiter that is
    not escaped.  An escape character and the character after it are read
    together, so that an escaped escape character does not escape the
    delimiter that follows it; both stay in the token, as does an escape
    character at the end of the text. *)
Fixpoint split_escaped (text : string) : list string :=
  match text with
  | EmptyString => [EmptyString]
  | String c rest =>
      if Ascii.eqb c delimiter then EmptyString :: split_escaped rest
      else if Ascii.eqb c escape_char then
        match rest with
        | EmptyString => [String c EmptyString]
        | String d rest' => push c (push d (split_escaped rest'))
        end
      else push c (split_escaped rest)
  end.

(** Modelled from the spec: unescaping drops each escape character and
    keeps the character after it; an escape character with nothing after
    it is a [MalformedEscapeSequence]. *)
Fixpoint unescape_token (token : string) : result string :=
  match token with
  | EmptyString => Ok EmptyString
  | String c rest =>
      if Ascii.eqb c escape_char then
        match rest with
        | EmptyString => Error MalformedEscapeSequence
        | String d rest' =>
            tail <- unescape_token rest' ;; Ok (String d tail)
        end
      else tail <- unescape_token rest ;; Ok (String c tail)
  end.

(** Modelled from the spec: the Canonicalizer of the spec, which rejects a
    token whose canonical form is empty. *)
Definition Canonicalize (raw : string) : result string :=
  let token := SLPGetCanonicalString raw in
  if token =? "" then Error InvalidScopeToken else Ok token.

Fixpoint decode_tokens (tokens : list string) (scopes : StdSet.t)
  : result StdSet.t :=
  match tokens with
  | [] => Ok scopes
  | raw :: rest =>
      token <- unescape_token raw ;;
      scope <- Canonicalize token ;;
      decode_tokens rest (StdSet.insert scope scopes)
  end.

(** The tokens of a text; the empty text, which is how the empty set is
    encoded, holds none. *)
Definition tokens_of (text : string) : list string :=
  match text with
  | EmptyString => []
  | String _ _ => split_escaped text
  end.

(** Modelled from the spec: [ScopeSet(const string &scopes)] is declared in
    ScopeSet.h and defined in tools/slp/ScopeSet.cpp, which is not among
    the sources.  The spec's Decode splits the text, unescapes and
    canonicalizes each token and inserts it; the first token that cannot be
    unescaped or whose canonical form is empty makes the whole decoding
    fail. *)
Definition ScopeSet_of_string (scopes : string) : result ScopeSet :=
  decoded <- decode_tokens (tokens_of scopes) [] ;;
  Ok {| m_scopes := decoded |}.





(** A valid set in the sense of the spec: ordered, and every token
    canonical and not empty. *)
Definition ScopeSet_valid (s : ScopeSet) : Prop :=
  ScopeSet_ok s /\ Forall (fun token => token <> "") (m_scopes s).

(** ** Reading a set *)

(** [mem x l]: [x] is one of the elements of [l]. *)
Definition mem (x : string) (l : list string) : bool :=
  existsb (String.eqb x) l.

(** The tokens of [a] that are in [b], and those that are not. *)
Definition common (a b : list string) : list string :=
  filter (fun x => mem x b) a.

Definition only_left (a b : list string) : list string :=
  filter (fun x => negb (mem x b)) a.

(** ** The sets and texts of the examples *)



Definition scopes_local : ScopeSet :=
  ScopeSet_of_vector ["default"; "east-wing"].

Definition scopes_remote : ScopeSet :=
  ScopeSet_of_vector ["East-Wing "; "west-wing"].

Definition scopes_xyz : ScopeSet := ScopeSet_of_vector ["z"; "x"; "y"].

Definition scopes_y : ScopeSet := ScopeSet_of_vector ["y"].

(** ** std::map<int, V> *)

Module StdMap.

(** A [std::map<int, V>] is given by the sequence of its entries as an
    iteration visits them, in increasing order of the keys. *)
Definition t (V : Type) : Type := list (Z * V).

Definition ordered {V : Type} (m : t V) : Prop :=
  StronglySorted Z.lt (map fst m).

Fixpoint orderedb {V : Type} (m : t V) : bool :=
  match m with
  | [] => true
  | (k, _) :: rest =>
      forallb (fun entry => Z.ltb k (fst entry)) rest && orderedb rest
  end.

(** [m.find(k)]: the value under [k], or nothing for [m.end()]. *)
Fixpoint find {V : Type} (k : Z) (m : t V) : option V :=
  match m with
  | [] => None
  | (k', v) :: rest =>
      if Z.ltb k' k then find k rest
      else if Z.ltb k k' then None
      else Some v
  end.

(** [m.insert(pair)]: an entry whose key is there already is not added and
    the entry that is there stays. *)
Fixpoint insert {V : Type} (entry : Z * V) (m : t V) : t V :=
  match m with
  | [] => [entry]
  | (k', v') :: rest =>
      if Z.ltb (fst entry) k' then entry :: m
      else if Z.ltb k' (fst entry) then (k', v') :: insert entry rest
      else m
  end.

(** [m.erase(k)]. *)
Fixpoint erase {V : Type} (k : Z) (m : t V) : t V :=
  match m with
  | [] => []
  | (k', v') :: rest =>
      if Z.ltb k' k then (k', v') :: erase k rest
      else if Z.ltb k k' then m
      else rest
  end.

End StdMap.

(** ** llad/UniverseStore.cpp *)

Module lla.

(** [Universe::MERGE_HTP] and [Universe::MERGE_LTP]. *)
Inductive merge_mode : Type := MERGE_HTP | MERGE_LTP.

(** [Universe] is declared in llad/Universe.h, which is not among the
    sources: the class is a parameter, given by the constructor and the
    member functions that UniverseStore.cpp calls. *)
Class UniverseClass (U : Type) : Type := {
  Universe_new : Z -> U;
  UniverseId : U -> Z;
  Name : U -> string;
  SetName : string -> U -> U;
  MergeMode : U -> merge_mode;
  SetMergeMode : merge_mode -> U -> U;
  IsActive : U -> bool
}.

(** What the names of these member functions promise: the constructor
    keeps the id it is given, and a setter changes what its getter reads
    and nothing else that the store reads. *)
Class UniverseLaws (U : Type) `{UniverseClass U} : Prop := {
  UniverseId_new : forall id, UniverseId (Universe_new id) = id;
  UniverseId_SetName : forall n u, UniverseId (SetName n u) = UniverseId u;
  UniverseId_SetMergeMode :
    forall m u, UniverseId (SetMergeMode m u) = UniverseId u;
  Name_SetName : forall n u, Name (SetName n u) = n;
  Name_SetMergeMode : forall m u, Name (SetMergeMode m u) = Name u;
  MergeMode_SetMergeMode : forall m u, MergeMode (SetMergeMode m u) = m;
  MergeMode_SetName : forall n u, MergeMode (SetName n u) = MergeMode u
}.

(** [Preferences] is declared in llad/Preferences.h, which is not among
    the sources: the class is a parameter, given by the two member
    functions that UniverseStore.cpp calls. *)
Class PreferencesClass (P : Type) : Type := {
  GetValue : P -> string -> string;
  SetValue : string -> string -> P -> P
}.

(** A value that was set is the value read back under the same key, and
    setting it changes no other key. *)
Class PreferencesLaws (P : Type) `{PreferencesClass P} : Prop := {
  GetValue_SetValue : forall p key value,
      GetValue (SetValue key value p) key = value;
  GetValue_SetValue_other : forall p key key' value,
      key <> key' -> GetValue (SetValue key value p) key' = GetValue p key'
}.

(** A [Universe*] that is not [NULL] is the address of an object; the
    memory holds, at every address that was ever given out, the object
    there or nothing once it was deleted. *)
Definition pointer : Type := nat.

Definition memory (U : Type) : Type := list (option U).

Definition load {U : Type} (h : memory U) (p : pointer) : option U :=
  match nth_error h p with
  | Some cell => cell
  | None => None
  end.

Fixpoint write {U : Type} (h : memory U) (p : pointer) (cell : option U)
  : memory U :=
  match h, p with
  | [], _ => []
  | _ :: rest, O => cell :: rest
  | c :: rest, S p' => c :: write rest p' cell
  end.

(** [new]: the object is put at an address not given out before. *)
Definition alloc {U : Type} (h : memory U) (u : U) : pointer * memory U :=
  (List.length h, h ++ [Some u]).

(** [oss << std::dec << id]. *)
Definition decimal (id : Z) : string :=
  NilZero.string_of_int (Z.to_int id).

Definition name_key (id : Z) : string := ("uni_" ++ decimal id) ++ "_name".

Definition merge_key (id : Z) : string := ("uni_" ++ decimal id) ++ "_merge".

Section Store.
Context {U P : Type} `{UniverseClass U} `{PreferencesClass P}.

(** The members of a [UniverseStore], with the [Preferences] object behind
    [m_preferences] (nothing when the pointer is [NULL]) and the [Universe]
    objects in memory. *)
Record UniverseStore : Type := {
  m_universe_map : StdMap.t pointer;
  m_preferences : option P;
  objects : memory U
}.

(** A member function takes the state to its result and the state after
    the call; it gives nothing when the call dereferences [NULL] or a
    pointer to a deleted object. *)
Definition call (A : Type) : Type := UniverseStore -> option (A * UniverseStore).

Definition ret {A : Type} (a : A) : call A := fun st => Some (a, st).

Definition seq {A B : Type} (c : call A) (k : A -> call B) : call B :=
  fun st =>
    match c st with
    | Some (a, st') => k a st'
    | None => None
    end.

Definition undefined {A : Type} : call A := fun _ => None.

(** [*universe], for reading. *)
Definition deref (universe : option pointer) : call U :=
  fun st =>
    match universe with
    | Some p =>
        match load (objects st) p with
        | Some u => Some (u, st)
        | None => None
        end
    | None => None
    end.

(** A call of a member function that changes the object behind [p]. *)
Definition modify (p : pointer) (f : U -> U) : call unit :=
  fun st =>
    match load (objects st) p with
    | Some u =>
        Some (tt, {| m_universe_map := m_universe_map st;
                     m_preferences := m_preferences st;
                     objects := write (objects st) p (Some (f u)) |})
    | None => None
    end.

(** [delete p]. *)
Definition delete (p : pointer) : call unit :=
  fun st =>
    match load (objects st) p with
    | Some _ =>
        Some (tt, {| m_universe_map := m_universe_map st;
                     m_preferences := m_preferences st;
                     objects := write (objects st) p None |})
    | None => None
    end.

(** [m_preferences->GetValue(key)]. *)
Definition preferences_get (key : string) : call string :=
  fun st =>
    match m_preferences st with
    | Some prefs => Some (GetValue prefs key, st)
    | None => None
    end.

(** [m_preferences->SetValue(key, value)]. *)
Definition preferences_set (key value : string) : call unit :=
  fun st =>
    match m_preferences st with
    | Some prefs =>
        Some (tt, {| m_universe_map := m_universe_map st;
                     m_preferences := Some (SetValue key value prefs);
                     objects := objects st |})
    | None => None
    end.

Definition set_map (m : StdMap.t pointer) : call unit :=
  fun st =>
    Some (tt, {| m_universe_map := m;
                 m_preferences := m_preferences st;
                 objects := objects st |}).

Definition GetUniverse (universe_id : Z) (st : UniverseStore)
  : option pointer :=
  StdMap.find universe_id (m_universe_map st).

Definition RestoreUniverseSettings (universe : option pointer) : call Z :=
  match universe with
  | None => ret 0%Z
  | Some p =>
      seq (deref universe) (fun u =>
      let id := UniverseId u in
      seq (preferences_get (name_key id)) (fun value =>
      seq (if value =? "" then ret tt else modify p (SetName value))
          (fun _ =>
      seq (preferences_get (merge_key id)) (fun value =>
      seq (if value =? "" then ret tt
           else if value =? "HTP" then modify p (SetMergeMode MERGE_HTP)
           else modify p (SetMergeMode MERGE_LTP))
          (fun _ => ret 0%Z)))))
  end.

Definition SaveUniverseSettings (universe : option pointer) : call Z :=
  match universe with
  | None => ret 0%Z
  | Some p =>
      seq (deref universe) (fun u =>
      let id := UniverseId u in
      seq (deref universe) (fun u' =>
      seq (preferences_set (name_key id) (Name u')) (fun _ =>
      seq (deref universe) (fun u'' =>
      let mode :=
        match MergeMode u'' with
        | MERGE_HTP => "HTP"
        | MERGE_LTP => "LTP"
        end in
      seq (preferences_set (merge_key id) mode) (fun _ => ret 0%Z)))))
  end.

(** [new] gives an object or does not return: the test of its result
    always finds a pointer. *)
Definition GetUniverseOrCreate (universe_id : Z) : call (option pointer) :=
  fun st =>
    match GetUniverse universe_id st with
    | Some p => Some (Some p, st)
    | None =>
        let '(p, h) := alloc (objects st) (Universe_new universe_id) in
        let st1 :=
          {| m_universe_map :=
               StdMap.insert (universe_id, p) (m_universe_map st);
             m_preferences := m_preferences st;
             objects := h |} in
        match m_preferences st1 with
        | Some _ =>
            seq (RestoreUniverseSettings (Some p)) (fun _ => ret (Some p)) st1
        | None => Some (Some p, st1)
        end
    end.

(** The vector [GetList] returns. *)
Definition GetList (st : UniverseStore) : list pointer :=
  map snd (m_universe_map st).

Fixpoint DeleteAll_loop (iter : list (Z * pointer)) : call unit :=
  match iter with
  | [] => ret tt
  | (_, p) :: rest =>
      seq (SaveUniverseSettings (Some p)) (fun _ =>
      seq (delete p) (fun _ => DeleteAll_loop rest))
  end.

Definition DeleteAll : call Z :=
  fun st =>
    seq (DeleteAll_loop (m_universe_map st)) (fun _ =>
    seq (set_map []) (fun _ => ret 0%Z)) st.

Definition DeleteUniverseIfInactive (universe : option pointer) : call bool :=
  seq (deref universe) (fun u =>
  if IsActive u then ret false
  else
    seq (deref universe) (fun u' =>
    fun st =>
      seq (set_map (StdMap.erase (UniverseId u') (m_universe_map st)))
          (fun _ =>
      seq (SaveUniverseSettings universe) (fun _ =>
      match universe with
      | Some p => seq (delete p) (fun _ => ret true)
      | None => undefined
      end)) st)).

(** What [RestoreUniverseSettings] makes of a universe, given the two
    values it reads, and the text [SaveUniverseSettings] writes for a
    merge mode. *)
Definition restore_name (value : string) (u : U) : U :=
  if value =? "" then u else SetName value u.

Definition restore_mode (value : string) (u : U) : U :=
  if value =? "" then u
  else if value =? "HTP" then SetMergeMode MERGE_HTP u
  else SetMergeMode MERGE_LTP u.

Definition mode_text (mode : merge_mode) : string :=
  match mode with
  | MERGE_HTP => "HTP"
  | MERGE_LTP => "LTP"
  end.

(** Two states with the same members that differ at most in the object
    behind [p]. *)
Definition same_but_object (p : pointer) (st st' : UniverseStore) : Prop :=
  m_universe_map st' = m_universe_map st
  /\ m_preferences st' = m_preferences st
  /\ List.length (objects st') = List.length (objects st)
  /\ forall q, q <> p -> load (objects st') q = load (objects st) q.

(** Every entry of the map points to a live object whose id is the key of
    the entry, and the map is ordered. *)
Definition store_ok (st : UniverseStore) : Prop :=
  StdMap.ordered (m_universe_map st)
  /\ forall id p, In (id, p) (m_universe_map st) ->
                  exists u, load (objects st) p = Some u /\ UniverseId u = id.

End Store.

Arguments UniverseStore U P : clear implicits.

(** *** A class of universes and a class of preferences for the examples *)

Record PlainUniverse : Type := {
  plain_id : Z;
  plain_name : string;
  plain_mode : merge_mode;
  plain_active : bool
}.

#[export] Instance PlainUniverse_class : UniverseClass PlainUniverse := {
  Universe_new id :=
    {| plain_id := id; plain_name := ""; plain_mode := MERGE_LTP;
       plain_active := false |};
  UniverseId := plain_id;
  Name := plain_name;
  SetName n u :=
    {| plain_id := plain_id u; plain_name := n; plain_mode := plain_mode u;
       plain_active := plain_active u |};
  MergeMode := plain_mode;
  SetMergeMode m u :=
    {| plain_id := plain_id u; plain_name := plain_name u; plain_mode := m;
       plain_active := plain_active u |};
  IsActive := plain_active
}.

Definition PlainPreferences : Type := list (string * string).

Fixpoint plain_get (prefs : PlainPreferences) (key : string) : string :=
  match prefs with
  | [] => ""
  | (k, v) :: rest => if k =? key then v else plain_get rest key
  end.

#[export] Instance PlainPreferences_class : PreferencesClass PlainPreferences := {
  GetValue := plain_get;
  SetValue key value prefs := (key, value) :: prefs
}.

(** A store with one inactive universe, number 7, and preferences. *)
Definition studio : PlainUniverse :=
  {| plain_id := 7; plain_name := "studio"; plain_mode := MERGE_HTP;
     plain_active := false |}.

Definition one_universe : UniverseStore PlainUniverse PlainPreferences :=
  {| m_universe_map := [(7%Z, 0%nat)];
     m_preferences := Some [];
     objects := [Some studio] |}.

(** A store with two universes: number 7 was created first and number 3
    after it. *)
Definition stage : PlainUniverse :=
  {| plain_id := 3; plain_name := "stage"; plain_mode := MERGE_LTP;
     plain_active := true |}.

Definition two_universes : UniverseStore PlainUniverse PlainPreferences :=
  {| m_universe_map := [(3%Z, 1%nat); (7%Z, 0%nat)];
     m_preferences := Some [];
     objects := [Some studio; Some stage] |}.

(** The same store without preferences. *)
Definition bare_store : UniverseStore PlainUniverse PlainPreferences :=
  {| m_universe_map := [(7%Z, 0%nat)];
     m_preferences := None;
     objects := [Some studio] |}.

End lla.

(** * Part II: properties *)

Example canonical_lighting :
  SLPGetCanonicalString " Lighting " = "lighting".
Proof. reflexivity. Qed.

Example canonical_blank : SLPGetCanonicalString "  " = "".
Proof. reflexivity. Qed.

Example intersects_scenario :
  Intersects (ScopeSet_of_vector ["default"; "east-wing"])
             (ScopeSet_of_vector ["east-wing"; "west-wing"]) = true.
Proof. reflexivity. Qed.

Example difference_update_xyz :
  DifferenceUpdate (ScopeSet_of_vector ["z"; "x"; "y"])
                   (Other (ScopeSet_of_vector ["y"]))
  = Some ({| m_scopes := ["y"] |}, {| m_scopes := ["x"; "z"] |}).
Proof. reflexivity. Qed.

Example difference_update_self :
  DifferenceUpdate (ScopeSet_of_vector ["z"; "x"; "y"]) This = None.
Proof. reflexivity. Qed.

Example decode_escaped :
  ScopeSet_of_string "a\,b,c" = Ok {| m_scopes := ["a,b"; "c"] |}.
Proof. reflexivity. Qed.

Example decode_escaped_escape :
  ScopeSet_of_string
    (AsEscapedString {| m_scopes := ["a,"; String "b" (String escape_char "")] |})
  = Ok {| m_scopes := ["a,"; String "b" (String escape_char "")] |}.
Proof. reflexivity. Qed.

Example decode_dangling_escape :
  ScopeSet_of_string (String "a" (String escape_char ""))
  = Error MalformedEscapeSequence.
Proof. reflexivity. Qed.

Example encode_escaped :
  AsEscapedString {| m_scopes := ["a,b"; "c"] |} = "a\,b,c".
Proof. reflexivity. Qed.

(** ** The order of std::string *)

Module StdStringFacts.

Lemma ltb_lt (a b : string) : (a <? b) = true <-> String_as_OT.lt a b.
Proof.
  unfold String.ltb, String_as_OT.lt.
  change (String_as_OT.compare a b) with (String.compare a b).
  destruct (String.compare a b); split; congruence.
Qed.

Lemma ltb_irrefl (a : string) : (a <? a) = false.
Proof.
  destruct (a <? a) eqn:E; trivial.
  apply ltb_lt in E. now apply (StrictOrder_Irreflexive a) in E.
Qed.

Lemma ltb_trans (a b c : string) :
  (a <? b) = true -> (b <? c) = true -> (a <? c) = true.
Proof. rewrite !ltb_lt. apply (StrictOrder_Transitive a b c). Qed.

Lemma ltb_asym (a b : string) : (a <? b) = true -> (b <? a) = false.
Proof.
  intros H. destruct (b <? a) eqn:E; trivial.
  pose proof (ltb_trans _ _ _ H E) as F. now rewrite ltb_irrefl in F.
Qed.

(** The order is total: two strings neither of which is below the other
    are the same string. *)
Lemma ltb_total (a b : string) :
  (a <? b) = false -> (b <? a) = false -> a = b.
Proof.
  unfold String.ltb. rewrite (String.compare_antisym b a).
  destruct (String.compare a b) eqn:E; simpl; try discriminate.
  intros _ _. now apply String.compare_eq_iff.
Qed.

Lemma ltb_eqb (a b : string) : (a <? b) = true -> (a =? b) = false.
Proof.
  intros H. apply String.eqb_neq. intros ->. now rewrite ltb_irrefl in H.
Qed.

(** The three ways two strings compare, with what each test of the merge
    loops answers. *)
Lemma ltb_cases (x y : string) :
  {(x <? y) = true /\ (y <? x) = false /\ (x =? y) = false} +
  {x = y} +
  {(y <? x) = true /\ (x <? y) = false /\ (x =? y) = false}.
Proof.
  destruct (x <? y) eqn:Hxy.
  - left; left. auto using ltb_asym, ltb_eqb.
  - destruct (y <? x) eqn:Hyx.
    + right. repeat split; trivial.
      rewrite String.eqb_sym. now apply ltb_eqb.
    + left; right. now apply ltb_total.
Qed.

End StdStringFacts.

Import StdStringFacts.

(** Splits on how [x] and [y] compare and rewrites the tests of the goal
    with the answers. *)
Ltac compare_strings x y :=
  let H1 := fresh "Hlt" in
  let H2 := fresh "Hgt" in
  let H3 := fresh "Hne" in
  destruct (ltb_cases x y) as [[(H1 & H2 & H3)| ->]|(H1 & H2 & H3)];
  rewrite ?H1, ?H2, ?H3, ?ltb_irrefl, ?String.eqb_refl.

(** ** std::set<string> *)

Module StdSetFacts.
Import StdSet.

Lemma mem_In (x : string) (l : list string) : mem x l = true <-> In x l.
Proof.
  unfold mem. rewrite existsb_exists. split.
  - intros (y & Hy & E). apply String.eqb_eq in E. now subst.
  - intros H. exists x. split; trivial. apply String.eqb_refl.
Qed.

Lemma mem_false (x : string) (l : list string) :
  mem x l = false <-> ~ In x l.
Proof.
  rewrite <- mem_In. destruct (mem x l); split; congruence.
Qed.

Lemma orderedb_ordered (s : t) : orderedb s = true <-> ordered s.
Proof.
  unfold ordered. induction s as [|x s IH]; simpl.
  - split; [constructor | trivial].
  - rewrite andb_true_iff, forallb_forall, IH. split.
    + intros [Hx Hs]. constructor; trivial. now apply Forall_forall.
    + intros H. inversion H; subst. split; trivial. now apply Forall_forall.
Qed.

Lemma ordered_inv (x : string) (s : t) :
  ordered (x :: s) -> ordered s /\ Forall (StdString.lt x) s.
Proof. intros H. inversion H; subst. now split. Qed.

Lemma lt_Forall_trans (x y : string) (s : list string) :
  (x <? y) = true -> Forall (StdString.lt y) s -> Forall (StdString.lt x) s.
Proof.
  intros Hxy. apply Forall_impl. intros z Hz. exact (ltb_trans _ _ _ Hxy Hz).
Qed.

(** Nothing below the head of an ordered sequence is in it. *)
Lemma mem_below (x y : string) (s : t) :
  (x <? y) = true -> ordered (y :: s) -> mem x (y :: s) = false.
Proof.
  intros Hxy Hs. apply mem_false. intros [->|Hin].
  - now rewrite ltb_irrefl in Hxy.
  - apply ordered_inv in Hs as [_ Hall].
    rewrite Forall_forall in Hall. specialize (Hall _ Hin).
    pose proof (ltb_trans _ _ _ Hxy Hall) as F. now rewrite ltb_irrefl in F.
Qed.

(** For what lies above [y], [y] may be left out of the other set. *)
Lemma mem_above (y z : string) (s : list string) :
  (y <? z) = true -> mem z (y :: s) = mem z s.
Proof.
  intros H. unfold mem. simpl. rewrite String.eqb_sym, (ltb_eqb _ _ H).
  reflexivity.
Qed.

Lemma filter_above (f g : string -> bool) (y : string) (l : list string) :
  (forall z, (y <? z) = true -> f z = g z) ->
  Forall (StdString.lt y) l -> filter f l = filter g l.
Proof.
  intros Hfg Hall. apply filter_ext_in. intros z Hz.
  rewrite Forall_forall in Hall. apply Hfg. exact (Hall _ Hz).
Qed.

Lemma common_above (y : string) (l s : list string) :
  Forall (StdString.lt y) l -> common l (y :: s) = common l s.
Proof. apply filter_above. intros z Hz. now apply mem_above. Qed.

Lemma only_left_above (y : string) (l s : list string) :
  Forall (StdString.lt y) l -> only_left l (y :: s) = only_left l s.
Proof.
  apply filter_above. intros z Hz. now rewrite mem_above.
Qed.

Lemma common_nil_r (l : list string) : common l [] = [].
Proof. unfold common. induction l; simpl; trivial. Qed.

Lemma only_left_nil_r (l : list string) : only_left l [] = l.
Proof.
  unfold only_left. induction l as [|x l IH]; simpl; trivial. now f_equal.
Qed.

Lemma In_common (x : string) (a b : list string) :
  In x (common a b) <-> In x a /\ In x b.
Proof. unfold common. now rewrite filter_In, mem_In. Qed.

Lemma In_only_left (x : string) (a b : list string) :
  In x (only_left a b) <-> In x a /\ ~ In x b.
Proof.
  unfold only_left. now rewrite filter_In, negb_true_iff, mem_false.
Qed.

Lemma filter_ordered (f : string -> bool) (s : t) :
  ordered s -> ordered (filter f s).
Proof.
  unfold ordered. induction 1 as [|x s Hs IH Hx]; simpl; [constructor|].
  destruct (f x); trivial. constructor; trivial.
  apply Forall_forall. intros z Hz. apply filter_In in Hz as [Hz _].
  rewrite Forall_forall in Hx. now apply Hx.
Qed.

(** *** insert *)

Lemma In_insert (x y : string) (s : t) :
  In x (insert y s) <-> x = y \/ In x s.
Proof.
  induction s as [|z s IH]; simpl.
  - intuition.
  - compare_strings y z; simpl; rewrite ?IH; intuition.
Qed.

Lemma insert_ordered (y : string) (s : t) :
  ordered s -> ordered (insert y s).
Proof.
  unfold ordered. induction 1 as [|z s Hs IH Hz]; simpl.
  - repeat constructor.
  - compare_strings y z.
    + constructor; [now constructor|].
      constructor; trivial. now apply lt_Forall_trans with z.
    + now constructor.
    + constructor; trivial.
      apply Forall_forall. intros w Hw. apply In_insert in Hw as [->|Hw].
      * exact Hlt.
      * rewrite Forall_forall in Hz. now apply Hz.
Qed.

(** An element above all the others goes last. *)
Lemma insert_last (x : string) (s : t) :
  Forall (fun z => (z <? x) = true) s -> insert x s = s ++ [x].
Proof.
  induction 1 as [|z s Hz _ IH]; simpl; trivial.
  now rewrite (ltb_asym _ _ Hz), Hz, IH.
Qed.

Lemma In_insert_range (x : string) (range : list string) (s : t) :
  In x (insert_range range s) <-> In x range \/ In x s.
Proof.
  unfold insert_range. revert s.
  induction range as [|y range IH]; intros s; simpl.
  - intuition.
  - rewrite IH, In_insert. intuition.
Qed.

Lemma insert_range_ordered (range : list string) (s : t) :
  ordered s -> ordered (insert_range range s).
Proof.
  unfold insert_range. revert s.
  induction range as [|y range IH]; intros s Hs; simpl; trivial.
  apply IH. now apply insert_ordered.
Qed.

Lemma ordered_app_last (s : t) (x : string) (rest : list string) :
  ordered (s ++ x :: rest) -> Forall (fun z => (z <? x) = true) s.
Proof.
  unfold ordered. induction s as [|z s IH]; simpl; intros H; [constructor|].
  inversion H; subst. constructor; [|now apply IH].
  match goal with F : Forall _ (s ++ _) |- _ => rewrite Forall_forall in F; apply F end.
  apply in_or_app. right. now left.
Qed.

(** Inserting an ordered range after what is already there appends it. *)
Lemma insert_range_append (range : list string) (s : t) :
  ordered (s ++ range) -> insert_range range s = s ++ range.
Proof.
  unfold insert_range. revert s.
  induction range as [|x range IH]; intros s H; simpl.
  - now rewrite app_nil_r.
  - rewrite (insert_last x s) by now apply ordered_app_last with range.
    rewrite IH; rewrite <- app_assoc; trivial.
Qed.

Lemma insert_range_nil (range : list string) :
  ordered range -> insert_range range [] = range.
Proof. intros H. now rewrite insert_range_append. Qed.

(** *** find and operator== *)

Lemma find_mem (x : string) (s : t) : ordered s -> find x s = mem x s.
Proof.
  induction s as [|y s IH]; intros Hs; trivial.
  cbn [find]. compare_strings y x.
  - rewrite mem_above by trivial. apply IH. now apply ordered_inv in Hs.
  - unfold mem. simpl. now rewrite String.eqb_refl.
  - simpl. symmetry. now apply mem_below.
Qed.

Lemma equal_eq (a b : t) : equal a b = true <-> a = b.
Proof.
  revert b. induction a as [|x a IH]; intros [|y b]; simpl;
    try (split; congruence).
  rewrite andb_true_iff, String.eqb_eq, IH. split.
  - now intros [-> ->].
  - intros H. inversion H. now split.
Qed.

(** Two ordered sequences with the same elements are the same sequence. *)
Lemma ordered_ext (a b : t) :
  ordered a -> ordered b -> (forall x, In x a <-> In x b) -> a = b.
Proof.
  revert b. induction a as [|x a IH]; intros [|y b] Ha Hb Hab; trivial.
  - destruct (proj2 (Hab y)). now left.
  - destruct (proj1 (Hab x)). now left.
  - apply ordered_inv in Ha as [Ha Hx]. apply ordered_inv in Hb as [Hb Hy].
    rewrite Forall_forall in Hx, Hy.
    assert (x = y) as ->.
    { destruct (proj1 (Hab x) (or_introl eq_refl)) as [E|Hin]; [auto|].
      destruct (proj2 (Hab y) (or_introl eq_refl)) as [E|Hin']; [auto|].
      pose proof (ltb_asym _ _ (Hx _ Hin')) as F.
      unfold StdString.lt in Hy. rewrite (Hy _ Hin) in F. discriminate. }
    f_equal. apply IH; trivial. intros z. split; intros Hz.
    + destruct (proj1 (Hab z) (or_intror Hz)) as [E|]; trivial.
      subst z. specialize (Hx _ Hz). unfold StdString.lt in Hx.
      now rewrite ltb_irrefl in Hx.
    + destruct (proj2 (Hab z) (or_intror Hz)) as [E|]; trivial.
      subst z. specialize (Hy _ Hz). unfold StdString.lt in Hy.
      now rewrite ltb_irrefl in Hy.
Qed.

Lemma ordered_NoDup (s : t) : ordered s -> NoDup s.
Proof.
  unfold ordered. induction 1 as [|x s Hs IH Hx]; constructor; trivial.
  intros Hin. rewrite Forall_forall in Hx. specialize (Hx _ Hin).
  unfold StdString.lt in Hx. now rewrite ltb_irrefl in Hx.
Qed.

End StdSetFacts.

(** ** The merge loops *)

(** Every loop over two ordered sequences looks at the two heads [x] and
    [y].  The three lemmas below say how the tokens in both sequences, and
    the tokens in the first one only, change with the step the loops take
    in each case. *)
Module MergeFacts.
Import StdSet StdSetFacts.

Section Heads.
Variables (x y : string) (a b : list string).
Hypothesis Ha : ordered (x :: a).
Hypothesis Hb : ordered (y :: b).

Lemma common_lt :
  (x <? y) = true -> common (x :: a) (y :: b) = common a (y :: b).
Proof using Ha Hb.
  intros H. unfold common at 1. cbn [filter]. now rewrite mem_below.
Qed.

Lemma common_gt :
  (y <? x) = true -> common (x :: a) (y :: b) = common (x :: a) b.
Proof using Ha Hb.
  intros H. apply common_above. constructor; trivial.
  apply lt_Forall_trans with x; trivial. now apply ordered_inv in Ha.
Qed.

Lemma common_eq : x = y -> common (x :: a) (y :: b) = x :: common a b.
Proof using Ha Hb.
  intros <-. unfold common at 1. cbn [filter].
  unfold mem at 1. cbn [existsb]. rewrite String.eqb_refl. cbn [orb].
  f_equal. apply common_above. now apply ordered_inv in Ha.
Qed.

Lemma only_left_lt :
  (x <? y) = true ->
  only_left (x :: a) (y :: b) = x :: only_left a (y :: b).
Proof using Ha Hb.
  intros H. unfold only_left at 1. cbn [filter]. now rewrite mem_below.
Qed.

Lemma only_left_gt :
  (y <? x) = true -> only_left (x :: a) (y :: b) = only_left (x :: a) b.
Proof using Ha Hb.
  intros H. apply only_left_above. constructor; trivial.
  apply lt_Forall_trans with x; trivial. now apply ordered_inv in Ha.
Qed.

Lemma only_left_eq : x = y -> only_left (x :: a) (y :: b) = only_left a b.
Proof using Ha Hb.
  intros <-. unfold only_left at 1. cbn [filter].
  unfold mem at 1. cbn [existsb]. rewrite String.eqb_refl. cbn [orb negb].
  apply only_left_above. now apply ordered_inv in Ha.
Qed.
End Heads.

(** The induction all the loops share: on the first sequence, and inside
    it on the second one. *)
Lemma merge_ind (P : list string -> list string -> Prop) :
  (forall b, P [] b) ->
  (forall a, P a []) ->
  (forall x a y b,
      ordered (x :: a) -> ordered (y :: b) ->
      P a (y :: b) -> P (x :: a) b -> P a b -> P (x :: a) (y :: b)) ->
  forall a b, ordered a -> ordered b -> P a b.
Proof.
  intros Hnil1 Hnil2 Hstep.
  induction a as [|x a IHa]; intros b Ha Hb; [apply Hnil1|].
  induction b as [|y b IHb]; [apply Hnil2|].
  pose proof (ordered_inv _ _ Ha) as [Ha' _].
  pose proof (ordered_inv _ _ Hb) as [Hb' _].
  apply Hstep; auto.
Qed.

Lemma set_intersection_nil_r (a : list string) : set_intersection a [] = [].
Proof. now destruct a. Qed.

Lemma set_intersection_common (a b : list string) :
  ordered a -> ordered b -> set_intersection a b = common a b.
Proof.
  revert a b. apply merge_ind.
  - now intros [|y b].
  - intros a. now rewrite set_intersection_nil_r, common_nil_r.
  - intros x a y b Ha Hb IH1 IH2 IH3. cbn [set_intersection].
    compare_strings x y.
    + now rewrite common_lt.
    + rewrite common_eq by trivial. f_equal. exact IH3.
    + rewrite common_gt by trivial. exact IH2.
Qed.

Lemma set_difference_nil_r (a : list string) : set_difference a [] = a.
Proof. now destruct a. Qed.

Lemma set_difference_only_left (a b : list string) :
  ordered a -> ordered b -> set_difference a b = only_left a b.
Proof.
  revert a b. apply merge_ind.
  - now intros [|y b].
  - intros a. now rewrite set_difference_nil_r, only_left_nil_r.
  - intros x a y b Ha Hb IH1 IH2 IH3. cbn [set_difference].
    compare_strings x y.
    + rewrite only_left_lt by trivial. f_equal. exact IH1.
    + now rewrite only_left_eq.
    + rewrite only_left_gt by trivial. exact IH2.
Qed.

Lemma Intersects_loop_nil_r (a : list string) : Intersects_loop a [] = false.
Proof. now destruct a. Qed.

Lemma Intersects_loop_common (a b : list string) :
  ordered a -> ordered b ->
  Intersects_loop a b = negb (Nat.eqb (List.length (common a b)) 0).
Proof.
  revert a b. apply merge_ind.
  - now intros [|y b].
  - intros a. now rewrite Intersects_loop_nil_r, common_nil_r.
  - intros x a y b Ha Hb IH1 IH2 IH3. cbn [Intersects_loop].
    compare_strings x y.
    + now rewrite common_lt.
    + now rewrite common_eq.
    + rewrite common_gt by trivial. exact IH2.
Qed.

Lemma IntersectionCount_loop_nil_r (a : list string) (i : Z) :
  IntersectionCount_loop a [] i = i.
Proof. now destruct a. Qed.

Lemma to_uint_idem (z : Z) : to_uint (to_uint z) = to_uint z.
Proof. unfold to_uint, UINT_MODULUS. now rewrite Z.mod_mod. Qed.

Lemma to_uint_small (z : Z) : (0 <= z < UINT_MODULUS)%Z -> to_uint z = z.
Proof. apply Z.mod_small. Qed.

Lemma IntersectionCount_loop_common (a b : list string) :
  ordered a -> ordered b ->
  forall i, to_uint i = i ->
  IntersectionCount_loop a b i
  = to_uint (i + Z.of_nat (List.length (common a b))).
Proof.
  revert a b.
  apply (merge_ind (fun a b => forall i, to_uint i = i ->
    IntersectionCount_loop a b i
    = to_uint (i + Z.of_nat (List.length (common a b))))).
  - intros [|y b] i Hi; simpl; now rewrite Z.add_0_r.
  - intros a i Hi.
    rewrite IntersectionCount_loop_nil_r, common_nil_r. simpl.
    now rewrite Z.add_0_r.
  - intros x a y b Ha Hb IH1 IH2 IH3 i Hi. cbn [IntersectionCount_loop].
    compare_strings x y.
    + rewrite common_lt by trivial. now apply IH1.
    + rewrite common_eq by trivial.
      rewrite IH3 by apply to_uint_idem.
      unfold uint_incr, to_uint, UINT_MODULUS. cbn [List.length].
      rewrite Zplus_mod_idemp_l. f_equal. lia.
    + rewrite common_gt by trivial. now apply IH2.
Qed.

Lemma DifferenceUpdate_loop_nil_r (same_object : bool)
      (a passed : list string) (d : StdSet.t) :
  DifferenceUpdate_loop same_object a [] passed d = Some (passed ++ a, d).
Proof. now destruct a. Qed.

Lemma DifferenceUpdate_loop_spec (a b : list string) :
  ordered a -> ordered b ->
  forall passed d,
  DifferenceUpdate_loop false a b passed d
  = Some (passed ++ only_left a b, insert_range (common a b) d).
Proof.
  revert a b.
  apply (merge_ind (fun a b => forall passed d,
    DifferenceUpdate_loop false a b passed d
    = Some (passed ++ only_left a b, insert_range (common a b) d))).
  - now intros [|y b] passed d.
  - intros a passed d.
    now rewrite DifferenceUpdate_loop_nil_r, common_nil_r, only_left_nil_r.
  - intros x a y b Ha Hb IH1 IH2 IH3 passed d.
    cbn [DifferenceUpdate_loop]. compare_strings x y.
    + rewrite IH1, common_lt, only_left_lt by trivial.
      now rewrite <- app_assoc.
    + rewrite IH3, common_eq, only_left_eq by trivial. reflexivity.
    + rewrite IH2, common_gt, only_left_gt by trivial. reflexivity.
Qed.

(** On its own container the loop stops at the first element. *)
Lemma DifferenceUpdate_loop_same_object (x : string) (a passed : list string)
      (d : StdSet.t) :
  DifferenceUpdate_loop true (x :: a) (x :: a) passed d = None.
Proof. cbn [DifferenceUpdate_loop]. now rewrite String.eqb_refl. Qed.

End MergeFacts.

(** ** The canonical form *)

Module SLPStringsFacts.

Lemma to_lower_idem (c : ascii) : to_lower (to_lower c) = to_lower c.
Proof. destruct c as [[] [] [] [] [] [] [] []]; reflexivity. Qed.

Lemma is_space_to_lower (c : ascii) : is_space (to_lower c) = is_space c.
Proof. destruct c as [[] [] [] [] [] [] [] []]; reflexivity. Qed.

Lemma fold_case_idem (s : string) : fold_case (fold_case s) = fold_case s.
Proof.
  induction s as [|c s IH]; simpl; trivial. now rewrite to_lower_idem, IH.
Qed.

Lemma fold_case_strip_leading (s : string) :
  fold_case (strip_leading s) = strip_leading (fold_case s).
Proof.
  induction s as [|c s IH]; simpl; trivial.
  rewrite is_space_to_lower. now destruct (is_space c).
Qed.

Lemma fold_case_strip_trailing (s : string) :
  fold_case (strip_trailing s) = strip_trailing (fold_case s).
Proof.
  induction s as [|c s IH]; simpl; trivial.
  rewrite <- IH, is_space_to_lower.
  destruct (strip_trailing s); simpl; trivial. now destruct (is_space c).
Qed.

Lemma strip_leading_clean (s : string) : starts_clean (strip_leading s) = true.
Proof.
  induction s as [|c s IH]; simpl; trivial.
  destruct (is_space c) eqn:E; trivial. simpl. now rewrite E.
Qed.

Lemma strip_leading_fixed (s : string) :
  starts_clean s = true -> strip_leading s = s.
Proof.
  destruct s as [|c s]; simpl; trivial. now destruct (is_space c).
Qed.

Lemma strip_trailing_clean (s : string) :
  starts_clean s = true -> starts_clean (strip_trailing s) = true.
Proof.
  destruct s as [|c s]; simpl; trivial.
  destruct (strip_trailing s); simpl; trivial.
  destruct (is_space c) eqn:E; simpl; trivial. now rewrite E.
Qed.

Lemma strip_trailing_idem (s : string) :
  strip_trailing (strip_trailing s) = strip_trailing s.
Proof.
  induction s as [|c s IH]; simpl; trivial.
  destruct (strip_trailing s) as [|d kept] eqn:E.
  - destruct (is_space c) eqn:Ec; simpl; trivial. now rewrite Ec.
  - cbn [strip_trailing]. cbn [strip_trailing] in IH. now rewrite IH.
Qed.

(** Canonicalization is idempotent. *)
Lemma SLPGetCanonicalString_idem (s : string) :
  canonical (SLPGetCanonicalString s).
Proof.
  unfold canonical, SLPGetCanonicalString.
  rewrite fold_case_strip_trailing, fold_case_strip_leading, fold_case_idem.
  rewrite strip_leading_fixed.
  - apply strip_trailing_idem.
  - apply strip_trailing_clean, strip_leading_clean.
Qed.

Lemma canonicalb_canonical (token : string) :
  canonicalb token = true <-> canonical token.
Proof. apply String.eqb_eq. Qed.

End SLPStringsFacts.

(** ** The class invariant and the constructors *)

Module ScopeSetFacts.
Import StdSet StdSetFacts MergeFacts SLPStringsFacts.

Lemma ScopeSet_okb_ok (s : ScopeSet) : ScopeSet_okb s = true <-> ScopeSet_ok s.
Proof.
  unfold ScopeSet_okb, ScopeSet_ok.
  rewrite andb_true_iff, orderedb_ordered, forallb_forall, Forall_forall.
  split; intros [Ho Hc]; split; trivial; intros x Hx.
  - apply canonicalb_canonical. now apply Hc.
  - apply canonicalb_canonical. now apply Hc.
Qed.

(** The loop of the two constructors inserts the range of the canonical
    forms. *)
Lemma insert_canonical_forms (scopes : list string) (acc : StdSet.t) :
  fold_left (fun acc scope => insert (SLPGetCanonicalString scope) acc)
            scopes acc
  = insert_range (map SLPGetCanonicalString scopes) acc.
Proof.
  unfold insert_range. revert acc.
  induction scopes as [|scope scopes IH]; intros acc; simpl; trivial.
Qed.

Lemma map_canonical (l : list string) :
  Forall canonical l -> map SLPGetCanonicalString l = l.
Proof.
  induction 1 as [|x l Hx _ IH]; simpl; trivial. now rewrite Hx, IH.
Qed.

Lemma In_ScopeSet_of_vector (scopes : list string) (token : string) :
  In token (m_scopes (ScopeSet_of_vector scopes))
  <-> exists raw, In raw scopes /\ SLPGetCanonicalString raw = token.
Proof.
  unfold ScopeSet_of_vector. cbn [m_scopes].
  rewrite insert_canonical_forms, In_insert_range, in_map_iff.
  split.
  - intros [(raw & E & Hin)|[]]. now exists raw.
  - intros (raw & Hin & E). left. now exists raw.
Qed.

Lemma ScopeSet_of_vector_ok (scopes : list string) :
  ScopeSet_ok (ScopeSet_of_vector scopes).
Proof.
  split.
  - unfold ScopeSet_of_vector. cbn [m_scopes]. rewrite insert_canonical_forms.
    apply insert_range_ordered. constructor.
  - apply Forall_forall. intros token Hin.
    apply In_ScopeSet_of_vector in Hin as (raw & _ & <-).
    apply SLPGetCanonicalString_idem.
Qed.

(** Built from a range that is ordered and canonical already, the set is
    that range. *)
Lemma ScopeSet_of_set_fixed (scopes : StdSet.t) :
  ordered scopes -> Forall canonical scopes ->
  ScopeSet_of_set scopes = {| m_scopes := scopes |}.
Proof.
  intros Ho Hc. unfold ScopeSet_of_set. f_equal.
  now rewrite insert_canonical_forms, map_canonical, insert_range_nil.
Qed.

Lemma Forall_filter (P : string -> Prop) (f : string -> bool) (l : list string) :
  Forall P l -> Forall P (filter f l).
Proof.
  rewrite !Forall_forall. intros H x Hx. apply filter_In in Hx. now apply H.
Qed.

Lemma Intersection_common (A B : ScopeSet) :
  ScopeSet_ok A -> ordered (m_scopes B) ->
  Intersection A B = {| m_scopes := common (m_scopes A) (m_scopes B) |}.
Proof.
  intros [Ho Hc] HB. unfold Intersection.
  rewrite set_intersection_common by trivial.
  rewrite insert_range_nil by now apply filter_ordered.
  apply ScopeSet_of_set_fixed.
  - now apply filter_ordered.
  - now apply Forall_filter.
Qed.

Lemma Difference_only_left (A B : ScopeSet) :
  ScopeSet_ok A -> ordered (m_scopes B) ->
  Difference A B = {| m_scopes := only_left (m_scopes A) (m_scopes B) |}.
Proof.
  intros [Ho Hc] HB. unfold Difference.
  rewrite set_difference_only_left by trivial.
  rewrite insert_range_nil by now apply filter_ordered.
  apply ScopeSet_of_set_fixed.
  - now apply filter_ordered.
  - now apply Forall_filter.
Qed.

Lemma DifferenceUpdate_spec (A B : ScopeSet) :
  ScopeSet_ok A -> ordered (m_scopes B) ->
  DifferenceUpdate A (Other B)
  = Some ({| m_scopes := common (m_scopes A) (m_scopes B) |},
          {| m_scopes := only_left (m_scopes A) (m_scopes B) |}).
Proof.
  intros [Ho Hc] HB. unfold DifferenceUpdate.
  rewrite DifferenceUpdate_loop_spec by trivial. cbn [app].
  rewrite insert_range_nil by now apply filter_ordered.
  rewrite ScopeSet_of_set_fixed; trivial.
  - now apply filter_ordered.
  - now apply Forall_filter.
Qed.

Lemma ScopeSet_ok_filter (f : string -> bool) (A : ScopeSet) :
  ScopeSet_ok A -> ScopeSet_ok {| m_scopes := filter f (m_scopes A) |}.
Proof.
  intros [Ho Hc]. split; cbn [m_scopes].
  - now apply filter_ordered.
  - now apply Forall_filter.
Qed.

Lemma In_Update (A B : ScopeSet) (token : string) :
  In token (m_scopes (Update A B))
  <-> In token (m_scopes A) \/ In token (m_scopes B).
Proof. unfold Update. cbn [m_scopes]. rewrite In_insert_range. tauto. Qed.

Lemma Update_ordered (A B : ScopeSet) :
  ordered (m_scopes A) -> ordered (m_scopes (Update A B)).
Proof. intros H. now apply insert_range_ordered. Qed.

Lemma ScopeSet_ext (A B : ScopeSet) :
  ordered (m_scopes A) -> ordered (m_scopes B) ->
  (forall token, In token (m_scopes A) <-> In token (m_scopes B)) -> A = B.
Proof.
  destruct A as [a], B as [b]. cbn [m_scopes]. intros Ha Hb H.
  f_equal. now apply ordered_ext.
Qed.

(** Two enumerations without repetition of the same tokens have the same
    length. *)
Lemma same_tokens_length (l l' : list string) :
  NoDup l -> NoDup l' -> (forall x, In x l <-> In x l') ->
  List.length l = List.length l'.
Proof.
  intros H H' E. apply Permutation_length. now apply NoDup_Permutation.
Qed.

Lemma common_NoDup (a b : list string) : ordered a -> NoDup (common a b).
Proof. intros H. apply ordered_NoDup. now apply filter_ordered. Qed.

Lemma common_self (a : list string) : common a a = a.
Proof.
  unfold common. apply forallb_filter_id. apply forallb_forall.
  intros x Hx. now apply mem_In.
Qed.

Lemma common_length_le (a b : list string) :
  (List.length (common a b) <= List.length a)%nat.
Proof. apply filter_length_le. Qed.

End ScopeSetFacts.

(** ** The wire format *)

Module CodecFacts.
Import StdSet StdSetFacts SLPStringsFacts ScopeSetFacts.

Lemma not_reserved (c : ascii) :
  reserved c = false ->
  Ascii.eqb c delimiter = false /\ Ascii.eqb c escape_char = false.
Proof. unfold reserved. now apply orb_false_iff. Qed.

(** The escaped form of a token is read back as one token, whatever comes
    after the delimiter that ends it. *)
Lemma split_escaped_token (token rest : string) :
  split_escaped (escape_token token ++ String delimiter rest)
  = escape_token token :: split_escaped rest.
Proof.
  induction token as [|c token IH]; trivial.
  cbn [escape_token]. destruct (reserved c) eqn:R.
  - change (split_escaped
              (String escape_char
                 (String c (escape_token token ++ String delimiter rest)))
            = String escape_char (String c (escape_token token))
              :: split_escaped rest).
    cbn [split_escaped]. change (Ascii.eqb escape_char delimiter) with false.
    rewrite Ascii.eqb_refl. cbv iota. now rewrite IH.
  - apply not_reserved in R as [Rd Re].
    change (split_escaped
              (String c (escape_token token ++ String delimiter rest))
            = String c (escape_token token) :: split_escaped rest).
    cbn [split_escaped]. now rewrite Rd, Re, IH.
Qed.

Lemma split_escaped_last (token : string) :
  split_escaped (escape_token token) = [escape_token token].
Proof.
  induction token as [|c token IH]; trivial.
  cbn [escape_token]. destruct (reserved c) eqn:R.
  - cbn [split_escaped]. change (Ascii.eqb escape_char delimiter) with false.
    rewrite Ascii.eqb_refl. cbv iota. now rewrite IH.
  - apply not_reserved in R as [Rd Re].
    cbn [split_escaped]. now rewrite Rd, Re, IH.
Qed.

Lemma split_escaped_concat (token : string) (tokens : list string) :
  split_escaped
    (String.concat (String delimiter EmptyString)
                   (map escape_token (token :: tokens)))
  = map escape_token (token :: tokens).
Proof.
  revert token. induction tokens as [|next tokens IH]; intros token.
  - apply split_escaped_last.
  - change (split_escaped
              (escape_token token
               ++ String delimiter
                    (String.concat (String delimiter EmptyString)
                                   (map escape_token (next :: tokens))))
            = escape_token token :: map escape_token (next :: tokens)).
    now rewrite split_escaped_token, IH.
Qed.

Lemma unescape_escape (token : string) :
  unescape_token (escape_token token) = Ok token.
Proof.
  induction token as [|c token IH]; trivial.
  cbn [escape_token]. destruct (reserved c) eqn:R.
  - cbn [unescape_token]. rewrite Ascii.eqb_refl, IH. reflexivity.
  - apply not_reserved in R as [_ Re].
    cbn [unescape_token]. rewrite Re, IH. reflexivity.
Qed.

Lemma Canonicalize_canonical (token : string) :
  canonical token -> token <> "" -> Canonicalize token = Ok token.
Proof.
  unfold Canonicalize, canonical. intros -> Hne.
  apply String.eqb_neq in Hne. now rewrite Hne.
Qed.

Lemma decode_escaped_tokens (tokens : list string) (scopes : StdSet.t) :
  Forall canonical tokens -> Forall (fun token => token <> "") tokens ->
  decode_tokens (map escape_token tokens) scopes
  = Ok (insert_range tokens scopes).
Proof.
  intros Hc. revert scopes.
  induction Hc as [|token tokens Ht _ IH]; intros scopes Hne; trivial.
  inversion Hne; subst. cbn [map decode_tokens].
  rewrite unescape_escape. cbn [bind].
  rewrite Canonicalize_canonical by trivial. cbn [bind].
  now rewrite IH.
Qed.

Lemma escape_token_not_empty (token : string) :
  token <> "" -> exists c rest, escape_token token = String c rest.
Proof.
  destruct token as [|c token]; [congruence|]. intros _.
  cbn [escape_token]. destruct (reserved c); eauto.
Qed.

Lemma tokens_of_encoded (token : string) (tokens : list string) :
  token <> "" ->
  tokens_of (String.concat (String delimiter EmptyString)
                           (map escape_token (token :: tokens)))
  = map escape_token (token :: tokens).
Proof.
  intros Hne. etransitivity; [|apply split_escaped_concat].
  destruct (escape_token_not_empty token Hne) as (c & rest & E).
  cbn [map String.concat]. rewrite E.
  now destruct (map escape_token tokens).
Qed.



End CodecFacts.

(** ** Construction through the Canonicalizer *)

Module ConstructionFacts.
Import StdSet CodecFacts.











End ConstructionFacts.

(** ** The queries *)

Module QueryFacts.
Import StdSet StdSetFacts MergeFacts ScopeSetFacts.

Lemma common_not_empty (a b : list string) :
  negb (Nat.eqb (List.length (common a b)) 0) = true
  <-> exists token, In token a /\ In token b.
Proof.
  split.
  - destruct (common a b) as [|token rest] eqn:E; [discriminate|].
    intros _. exists token. apply In_common. rewrite E. now left.
  - intros (token & Hin). apply In_common in Hin.
    now destruct (common a b).
Qed.

Lemma Intersects_exists (A B : ScopeSet) :
  ordered (m_scopes A) -> ordered (m_scopes B) ->
  Intersects A B = true
  <-> exists token, In token (m_scopes A) /\ In token (m_scopes B).
Proof.
  intros HA HB. unfold Intersects.
  rewrite Intersects_loop_common by trivial. apply common_not_empty.
Qed.

Lemma IntersectionCount_common (A B : ScopeSet) :
  ordered (m_scopes A) -> ordered (m_scopes B) ->
  IntersectionCount A B
  = to_uint (Z.of_nat (List.length (common (m_scopes A) (m_scopes B)))).
Proof.
  intros HA HB. unfold IntersectionCount.
  now rewrite IntersectionCount_loop_common.
Qed.

Lemma Contains_In (S : ScopeSet) (scope : string) :
  ordered (m_scopes S) -> Contains S scope = true <-> In scope (m_scopes S).
Proof.
  intros H. unfold Contains. rewrite find_mem by trivial. apply mem_In.
Qed.

End QueryFacts.

(** * The claims *)

Import StdSetFacts SLPStringsFacts ScopeSetFacts QueryFacts.

(** Discharges an invariant on a given set by evaluating its test. *)
Ltac by_evaluation :=
  first [ apply ScopeSet_okb_ok; vm_compute; reflexivity
        | apply orderedb_ordered; vm_compute; reflexivity ].

(** C1: for ordered sets [A] and [B], [A.Intersects(B)] is true exactly
    when some token is in both; hence it gives the same answer with the
    operands exchanged, and false against the empty set.  The loop returns
    true on equal heads, otherwise moves past the smaller head, and returns
    false as soon as one of the two sequences is exhausted. *)
Theorem Intersects_common_token (A B : ScopeSet) :
  StdSet.ordered (m_scopes A) -> StdSet.ordered (m_scopes B) ->
  (Intersects A B = true
   <-> exists token, In token (m_scopes A) /\ In token (m_scopes B))
  /\ Intersects A B = Intersects B A
  /\ Intersects A ScopeSet_default = false
  /\ (forall x rest1 y rest2,
         Intersects_loop (x :: rest1) (y :: rest2)
         = if x =? y then true
           else if x <? y then Intersects_loop rest1 (y :: rest2)
           else Intersects_loop (x :: rest1) rest2)
  /\ (forall iter,
         Intersects_loop [] iter = false /\ Intersects_loop iter [] = false).
Proof.
  intros HA HB. repeat split.
  - now apply Intersects_exists.
  - now apply Intersects_exists.
  - apply eq_true_iff_eq. rewrite !Intersects_exists by trivial.
    split; intros (token & H1 & H2); now exists token.
  - apply MergeFacts.Intersects_loop_nil_r.
  - now destruct iter.
  - apply MergeFacts.Intersects_loop_nil_r.
Qed.

Lemma Intersects_common_token_witness :
  StdSet.ordered (m_scopes scopes_local)
  /\ StdSet.ordered (m_scopes scopes_remote)
  /\ Intersects scopes_local scopes_remote = Intersects scopes_remote scopes_local.
Proof.
  assert (Hl : StdSet.ordered (m_scopes scopes_local)) by by_evaluation.
  assert (Hr : StdSet.ordered (m_scopes scopes_remote)) by by_evaluation.
  split; [exact Hl|]. split; [exact Hr|].
  exact (proj1 (proj2 (Intersects_common_token scopes_local scopes_remote Hl Hr))).
Defined.

(** C2, as the code has it: [S.Contains(t)] looks [t] up as it is given,
    with no case folding and no trimming; it is true exactly when [t]
    itself is a token of [S].  For a [t] that is canonical already this is
    membership of its canonical form. *)
Theorem Contains_exact_token (S : ScopeSet) (t : string) :
  StdSet.ordered (m_scopes S) ->
  (Contains S t = true <-> In t (m_scopes S))
  /\ (canonical t ->
      (Contains S t = true <-> In (SLPGetCanonicalString t) (m_scopes S))).
Proof.
  intros H. split.
  - now apply Contains_In.
  - intros ->. now apply Contains_In.
Qed.

Lemma Contains_exact_token_witness :
  StdSet.ordered (m_scopes scopes_local)
  /\ (Contains scopes_local "default" = true
      <-> In "default" (m_scopes scopes_local)).
Proof.
  assert (Hl : StdSet.ordered (m_scopes scopes_local)) by by_evaluation.
  split; [exact Hl|].
  exact (proj1 (Contains_exact_token scopes_local "default" Hl)).
Defined.

(** C2 fails as stated: the canonical form of ["Lighting"] is in the set
    built from ["lighting"], and [Contains] answers false for it. *)
Lemma Contains_not_canonicalizing :
  ScopeSet_ok (ScopeSet_of_vector ["lighting"])
  /\ In (SLPGetCanonicalString "Lighting")
        (m_scopes (ScopeSet_of_vector ["lighting"]))
  /\ Contains (ScopeSet_of_vector ["lighting"]) "Lighting" = false
  /\ Contains (ScopeSet_of_vector ["lighting"]) "lighting" = true
  /\ Contains (ScopeSet_of_vector ["lighting"]) "lighting " = false.
Proof.
  split; [apply ScopeSet_of_vector_ok|].
  split; [now left|]. now vm_compute.
Qed.



(** C4: for [A] satisfying the class invariant and [B] ordered and an
    object of its own, [A.DifferenceUpdate(B)] leaves in [A] exactly the
    tokens of [A] that are not in [B], in their order and with none
    skipped, and returns exactly the tokens of [A] that are in [B]; for
    [A] = {x, y, z} and [B] = {y} it leaves {x, z} and returns {y}.  With
    [A] itself as operand the call is undefined as soon as [A] holds a
    token, [A] = {x, y, z} included; on the empty set it returns the empty
    set. *)
Theorem DifferenceUpdate_removes_shared :
  (forall A B,
      ScopeSet_ok A -> StdSet.ordered (m_scopes B) ->
      exists removed A',
        DifferenceUpdate A (Other B) = Some (removed, A')
        /\ (forall token,
               In token (m_scopes A')
               <-> In token (m_scopes A) /\ ~ In token (m_scopes B))
        /\ (forall token,
               In token (m_scopes removed)
               <-> In token (m_scopes A) /\ In token (m_scopes B))
        /\ m_scopes A' = only_left (m_scopes A) (m_scopes B)
        /\ ScopeSet_ok A'
        /\ ScopeSet_ok removed)
  /\ (exists removed A',
         DifferenceUpdate (ScopeSet_of_vector ["x"; "y"; "z"])
                          (Other (ScopeSet_of_vector ["y"]))
         = Some (removed, A')
         /\ ScopeSet_eq A' (ScopeSet_of_vector ["x"; "z"]) = true
         /\ ScopeSet_eq removed (ScopeSet_of_vector ["y"]) = true)
  /\ (forall A, m_scopes A <> [] -> DifferenceUpdate A This = None)
  /\ DifferenceUpdate (ScopeSet_of_vector ["x"; "y"; "z"]) This = None
  /\ DifferenceUpdate ScopeSet_default This
     = Some (ScopeSet_default, ScopeSet_default).
Proof.
  split; [|split; [|split; [|split; reflexivity]]].
  - intros A B HA HB. eexists. eexists.
    split; [now apply DifferenceUpdate_spec|]. cbn [m_scopes].
    split; [intros token; apply In_only_left|].
    split; [intros token; apply In_common|].
    split; [reflexivity|].
    split; now apply ScopeSet_ok_filter.
  - eexists. eexists. split; [reflexivity|]. now split.
  - intros [[|x a]] Hne; [now destruct Hne|].
    unfold DifferenceUpdate. cbn [m_scopes].
    now rewrite MergeFacts.DifferenceUpdate_loop_same_object.
Qed.

Lemma DifferenceUpdate_removes_shared_witness :
  ScopeSet_ok scopes_xyz /\ StdSet.ordered (m_scopes scopes_y)
  /\ (exists removed A',
         DifferenceUpdate scopes_xyz (Other scopes_y) = Some (removed, A')
         /\ m_scopes A' = only_left (m_scopes scopes_xyz) (m_scopes scopes_y))
  /\ m_scopes scopes_xyz <> []
  /\ DifferenceUpdate scopes_xyz This = None.
Proof.
  assert (Hx : ScopeSet_ok scopes_xyz) by by_evaluation.
  assert (Hy : StdSet.ordered (m_scopes scopes_y)) by by_evaluation.
  assert (Hne : m_scopes scopes_xyz <> []) by discriminate.
  split; [exact Hx|]. split; [exact Hy|].
  destruct DifferenceUpdate_removes_shared as (H & _ & Hself & _).
  split; [|split; [exact Hne|exact (Hself scopes_xyz Hne)]].
  destruct (H scopes_xyz scopes_y Hx Hy)
    as (removed & A' & Hcall & _ & _ & Hleft & _).
  exists removed, A'. now split.
Defined.

(** C5: decoding the encoded form of a valid set gives the set back, also
    when its tokens hold the delimiter or the escape character. *)
Theorem Decode_Encode_roundtrip (S : ScopeSet) :
  ScopeSet_valid S -> ScopeSet_of_string (AsEscapedString S) = Ok S.
Proof.
  destruct S as [[|token tokens]]; intros [[Ho Hc] Hne]; [reflexivity|].
  cbn [m_scopes] in *. unfold ScopeSet_of_string, AsEscapedString.
  cbn [m_scopes]. inversion Hne; subst.
  rewrite CodecFacts.tokens_of_encoded by trivial.
  rewrite CodecFacts.decode_escaped_tokens by trivial.
  cbn [bind]. now rewrite insert_range_nil.
Qed.

Lemma Decode_Encode_roundtrip_witness :
  ScopeSet_valid {| m_scopes := ["a,b"; "b\c"; "c"] |}
  /\ ScopeSet_of_string (AsEscapedString {| m_scopes := ["a,b"; "b\c"; "c"] |})
     = Ok {| m_scopes := ["a,b"; "b\c"; "c"] |}.
Proof.
  assert (H : ScopeSet_valid {| m_scopes := ["a,b"; "b\c"; "c"] |}).
  { split; [by_evaluation|]. repeat constructor; discriminate. }
  split; [exact H|]. exact (Decode_Encode_roundtrip _ H).
Defined.

(** C6: for ordered sets [A] and [B], [A.IntersectionCount(B)] is the
    number of tokens that are in both, as an [unsigned int]: for every
    enumeration without repetition of these tokens it is the length of the
    enumeration reduced modulo 2^32, and the length itself when the size of
    [A] fits in an [unsigned int].  [A.IntersectionCount(A)] is
    [A.size()]. *)
Theorem IntersectionCount_cardinality (A B : ScopeSet) :
  StdSet.ordered (m_scopes A) -> StdSet.ordered (m_scopes B) ->
  (forall both,
      NoDup both ->
      (forall token,
          In token both <-> In token (m_scopes A) /\ In token (m_scopes B)) ->
      IntersectionCount A B = to_uint (Z.of_nat (List.length both))
      /\ ((Z.of_nat (List.length (m_scopes A)) < UINT_MODULUS)%Z ->
          IntersectionCount A B = Z.of_nat (List.length both)))
  /\ IntersectionCount A A = size A.
Proof.
  intros HA HB. split.
  - intros both Hnd Hboth.
    assert (List.length both
            = List.length (common (m_scopes A) (m_scopes B))) as E.
    { apply same_tokens_length; trivial.
      - now apply common_NoDup.
      - intros token. now rewrite Hboth, In_common. }
    rewrite IntersectionCount_common, E by trivial. split; trivial.
    intros Hsize. apply MergeFacts.to_uint_small.
    pose proof (common_length_le (m_scopes A) (m_scopes B)). lia.
  - rewrite IntersectionCount_common, common_self by trivial. reflexivity.
Qed.

Lemma IntersectionCount_cardinality_witness :
  StdSet.ordered (m_scopes scopes_local)
  /\ StdSet.ordered (m_scopes scopes_remote)
  /\ NoDup ["east-wing"]
  /\ IntersectionCount scopes_local scopes_remote = 1%Z
  /\ IntersectionCount scopes_local scopes_local = size scopes_local.
Proof.
  assert (Hl : StdSet.ordered (m_scopes scopes_local)) by by_evaluation.
  assert (Hr : StdSet.ordered (m_scopes scopes_remote)) by by_evaluation.
  assert (Hn : NoDup ["east-wing"]) by (constructor; [intros []|constructor]).
  split; [exact Hl|]. split; [exact Hr|]. split; [exact Hn|].
  destruct (IntersectionCount_cardinality scopes_local scopes_remote Hl Hr)
    as [Hcount Hself].
  split; [|exact Hself].
  apply (Hcount ["east-wing"] Hn).
  - intros token. vm_compute. intuition (subst; auto; discriminate).
  - vm_compute. reflexivity.
Defined.

(** C7: two ordered sets are equal for [operator==] exactly when they hold
    the same tokens.  A set built by a constructor holds exactly the
    canonical forms of the raw tokens it was given, so two built sets are
    equal exactly when their raw tokens have the same canonical forms,
    whatever the order in which the raw tokens are given; the sets built
    from ["Lighting"] and from [" lighting "] both hold ["lighting"] only
    and are equal. *)
Theorem operator_eq_same_tokens :
  (forall A B,
      StdSet.ordered (m_scopes A) -> StdSet.ordered (m_scopes B) ->
      (ScopeSet_eq A B = true
       <-> forall token, In token (m_scopes A) <-> In token (m_scopes B)))
  /\ (forall scopes token,
         (In token (m_scopes (ScopeSet_of_vector scopes))
          <-> exists raw, In raw scopes /\ SLPGetCanonicalString raw = token)
         /\ (In token (m_scopes (ScopeSet_of_set scopes))
             <-> exists raw,
                   In raw scopes /\ SLPGetCanonicalString raw = token))
  /\ (forall scopes scopes',
         ScopeSet_eq (ScopeSet_of_vector scopes) (ScopeSet_of_vector scopes')
         = true
         <-> forall token,
               (exists raw,
                   In raw scopes /\ SLPGetCanonicalString raw = token)
               <-> (exists raw,
                       In raw scopes' /\ SLPGetCanonicalString raw = token))
  /\ (forall scopes scopes',
         Permutation scopes scopes' ->
         ScopeSet_eq (ScopeSet_of_vector scopes) (ScopeSet_of_vector scopes')
         = true)
  /\ m_scopes (ScopeSet_of_set ["Lighting"]) = ["lighting"]
  /\ m_scopes (ScopeSet_of_set [" lighting "]) = ["lighting"]
  /\ ScopeSet_eq (ScopeSet_of_set ["Lighting"]) (ScopeSet_of_set [" lighting "])
     = true
  /\ ScopeSet_eq (ScopeSet_of_vector ["Lighting"])
                 (ScopeSet_of_vector [" lighting "]) = true
  /\ ScopeSet_eq (ScopeSet_of_vector ["Lighting"])
                 (ScopeSet_of_vector ["Lighting"; "Audio"]) = false.
Proof.
  assert (forall A B,
      StdSet.ordered (m_scopes A) -> StdSet.ordered (m_scopes B) ->
      (ScopeSet_eq A B = true
       <-> forall token, In token (m_scopes A) <-> In token (m_scopes B)))
    as Heq.
  { intros A B HA HB. unfold ScopeSet_eq. rewrite equal_eq. split.
    - now intros ->.
    - now apply ordered_ext. }
  assert (forall scopes scopes',
         ScopeSet_eq (ScopeSet_of_vector scopes) (ScopeSet_of_vector scopes')
         = true
         <-> forall token,
               (exists raw,
                   In raw scopes /\ SLPGetCanonicalString raw = token)
               <-> (exists raw,
                       In raw scopes' /\ SLPGetCanonicalString raw = token))
    as Hbuilt.
  { intros scopes scopes'. rewrite Heq by apply ScopeSet_of_vector_ok.
    split; intros H token; specialize (H token);
      now rewrite !In_ScopeSet_of_vector in *. }
  split; [exact Heq|].
  split; [intros scopes token; split; apply In_ScopeSet_of_vector|].
  split; [exact Hbuilt|].
  split; [|repeat split].
  intros scopes scopes' Hperm. apply Hbuilt. intros token.
  split; intros (raw & Hin & E); exists raw; split; trivial.
  - now apply Permutation_in with scopes.
  - apply Permutation_in with scopes'; trivial. now apply Permutation_sym.
Qed.

Lemma operator_eq_same_tokens_witness :
  StdSet.ordered (m_scopes scopes_local)
  /\ Permutation ["x"; "Y"; "z"] ["z"; "x"; "Y"]
  /\ ScopeSet_eq scopes_local scopes_local = true
  /\ ScopeSet_eq (ScopeSet_of_vector ["x"; "Y"; "z"])
                 (ScopeSet_of_vector ["z"; "x"; "Y"]) = true.
Proof.
  assert (Hl : StdSet.ordered (m_scopes scopes_local)) by by_evaluation.
  assert (Hp : Permutation ["x"; "Y"; "z"] ["z"; "x"; "Y"]).
  { apply Permutation_sym. apply (Permutation_cons_app ["x"; "Y"] []).
    rewrite app_nil_r. apply Permutation_refl. }
  destruct operator_eq_same_tokens as (Heq & _ & _ & Hperm & _).
  split; [exact Hl|]. split; [exact Hp|]. split.
  - apply (Heq scopes_local scopes_local Hl Hl). intros token. tauto.
  - exact (Hperm _ _ Hp).
Defined.

(** C8: for [A] satisfying the class invariant and [B] ordered,
    [A.Intersection(B)] holds exactly the tokens in both and
    [A.Difference(B)] exactly the tokens of [A] that are not in [B]; both
    results satisfy the class invariant.  Both methods are [const] and take
    [other] by reference to [const]: they are functions of the two sets and
    give no set but their result. *)
Theorem Intersection_Difference_tokens (A B : ScopeSet) :
  ScopeSet_ok A -> StdSet.ordered (m_scopes B) ->
  (forall token,
      In token (m_scopes (Intersection A B))
      <-> In token (m_scopes A) /\ In token (m_scopes B))
  /\ (forall token,
         In token (m_scopes (Difference A B))
         <-> In token (m_scopes A) /\ ~ In token (m_scopes B))
  /\ ScopeSet_ok (Intersection A B)
  /\ ScopeSet_ok (Difference A B).
Proof.
  intros HA HB.
  rewrite Intersection_common, Difference_only_left by trivial.
  cbn [m_scopes].
  split; [intros token; apply In_common|].
  split; [intros token; apply In_only_left|].
  split; now apply ScopeSet_ok_filter.
Qed.

Lemma Intersection_Difference_tokens_witness :
  ScopeSet_ok scopes_local /\ StdSet.ordered (m_scopes scopes_remote)
  /\ (In "east-wing" (m_scopes (Intersection scopes_local scopes_remote))
      <-> In "east-wing" (m_scopes scopes_local)
          /\ In "east-wing" (m_scopes scopes_remote)).
Proof.
  assert (Hl : ScopeSet_ok scopes_local) by by_evaluation.
  assert (Hr : StdSet.ordered (m_scopes scopes_remote)) by by_evaluation.
  split; [exact Hl|]. split; [exact Hr|].
  exact (proj1 (Intersection_Difference_tokens scopes_local scopes_remote Hl Hr)
               "east-wing").
Defined.

(** The tokens after a sequence of [Update] calls: those of the set the
    calls start from and those of every argument. *)
Lemma In_fold_Update (others : list ScopeSet) (A : ScopeSet) (token : string) :
  In token (m_scopes (fold_left Update others A))
  <-> In token (m_scopes A)
      \/ exists B, In B others /\ In token (m_scopes B).
Proof.
  revert A. induction others as [|B others IH]; intros A; simpl.
  - split; [now left|]. now intros [H|(B & [] & _)].
  - rewrite IH, In_Update. split.
    + intros [[H|H]|(C & HC & H)]; eauto.
    + intros [H|(C & [<-|HC] & H)]; eauto.
Qed.

Lemma fold_Update_ordered (others : list ScopeSet) (A : ScopeSet) :
  StdSet.ordered (m_scopes A) ->
  StdSet.ordered (m_scopes (fold_left Update others A)).
Proof.
  revert A. induction others as [|B others IH]; intros A HA; simpl; trivial.
  apply IH. now apply Update_ordered.
Qed.

(** C9: after [A.Update(B)] the tokens of [A] are those of [A] before the
    call and those of [B]; the container stays ordered, hence without
    repetition, and stays canonical when both sets are.  The set a
    sequence of [Update] calls ends with is the same for every order of
    the calls. *)
Theorem Update_union :
  (forall A B,
      StdSet.ordered (m_scopes A) ->
      (forall token,
          In token (m_scopes (Update A B))
          <-> In token (m_scopes A) \/ In token (m_scopes B))
      /\ StdSet.ordered (m_scopes (Update A B))
      /\ NoDup (m_scopes (Update A B))
      /\ (Forall canonical (m_scopes A) -> Forall canonical (m_scopes B) ->
          ScopeSet_ok (Update A B)))
  /\ (forall A others others',
         StdSet.ordered (m_scopes A) ->
         Permutation others others' ->
         fold_left Update others A = fold_left Update others' A)
  /\ (forall A B C,
         StdSet.ordered (m_scopes A) ->
         Update (Update A B) C = Update (Update A C) B).
Proof.
  assert (Hperm : forall A others others',
             StdSet.ordered (m_scopes A) ->
             Permutation others others' ->
             fold_left Update others A = fold_left Update others' A).
  { intros A others others' HA Hp.
    apply ScopeSet_ext; try now apply fold_Update_ordered.
    intros token. rewrite !In_fold_Update.
    split; (intros [H|(B & HB & H)]; [now left|right; exists B; split; trivial]).
    - now apply Permutation_in with others.
    - apply Permutation_in with others'; trivial. now apply Permutation_sym. }
  split; [|split; trivial].
  - intros A B HA.
    split; [intros token; apply In_Update|].
    split; [now apply Update_ordered|].
    split; [now apply ordered_NoDup, Update_ordered|].
    intros HcA HcB. split; [now apply Update_ordered|].
    apply Forall_forall. intros token Hin. apply In_Update in Hin.
    rewrite Forall_forall in HcA, HcB. destruct Hin; auto.
  - intros A B C HA. apply (Hperm A [B; C] [C; B] HA). constructor.
Qed.

Lemma Update_union_witness :
  StdSet.ordered (m_scopes scopes_local)
  /\ m_scopes (Update (Update scopes_local scopes_remote) scopes_xyz)
     = ["default"; "east-wing"; "west-wing"; "x"; "y"; "z"]
  /\ Update (Update scopes_local scopes_remote) scopes_xyz
     = Update (Update scopes_local scopes_xyz) scopes_remote.
Proof.
  assert (Hl : StdSet.ordered (m_scopes scopes_local)) by by_evaluation.
  split; [exact Hl|]. split; [reflexivity|].
  destruct Update_union as (_ & _ & Hswap).
  exact (Hswap scopes_local scopes_remote scopes_xyz Hl).
Defined.

(** C10: for [A] satisfying the class invariant and [B] ordered,
    [A.IntersectionCount(B)] is the size of [A.Intersection(B)], and
    [A.Intersects(B)] is true exactly when [A.Intersection(B)] is not
    empty; when the size of [A] fits in an [unsigned int], that is exactly
    when [A.IntersectionCount(B)] is above zero. *)
Theorem intersection_queries_agree (A B : ScopeSet) :
  ScopeSet_ok A -> StdSet.ordered (m_scopes B) ->
  IntersectionCount A B = size (Intersection A B)
  /\ (Intersects A B = true <-> empty (Intersection A B) = 0%Z)
  /\ ((Z.of_nat (List.length (m_scopes A)) < UINT_MODULUS)%Z ->
      (Intersects A B = true <-> (0 < IntersectionCount A B)%Z)
      /\ ((0 < IntersectionCount A B)%Z <-> empty (Intersection A B) = 0%Z)).
Proof.
  intros HA HB. pose proof (proj1 HA) as Ho.
  rewrite Intersection_common, IntersectionCount_common by trivial.
  unfold Intersects, size, empty. cbn [m_scopes].
  rewrite MergeFacts.Intersects_loop_common by trivial.
  pose proof (common_length_le (m_scopes A) (m_scopes B)) as Hle.
  split; [reflexivity|]. split.
  - destruct (common (m_scopes A) (m_scopes B)); simpl; split; congruence.
  - intros Hsize. rewrite MergeFacts.to_uint_small by lia.
    destruct (common (m_scopes A) (m_scopes B)); cbn [List.length Nat.eqb negb].
    + split; split; (discriminate || lia).
    + split; split; intros _; (reflexivity || lia).
Qed.

Lemma intersection_queries_agree_witness :
  ScopeSet_ok scopes_local /\ StdSet.ordered (m_scopes scopes_remote)
  /\ IntersectionCount scopes_local scopes_remote
     = size (Intersection scopes_local scopes_remote)
  /\ (Intersects scopes_local scopes_remote = true
      <-> (0 < IntersectionCount scopes_local scopes_remote)%Z).
Proof.
  assert (Hl : ScopeSet_ok scopes_local) by by_evaluation.
  assert (Hr : StdSet.ordered (m_scopes scopes_remote)) by by_evaluation.
  split; [exact Hl|]. split; [exact Hr|].
  destruct (intersection_queries_agree scopes_local scopes_remote Hl Hr)
    as (Hsize & _ & Hcount).
  split; [exact Hsize|]. apply Hcount. vm_compute. reflexivity.
Defined.

(** * Further properties of ScopeSet *)

Module AlgebraFacts.
Import StdSet MergeFacts.

Lemma insert_not_nil (x : string) (s : t) : insert x s <> [].
Proof.
  destruct s as [|y s]; simpl; [discriminate|].
  destruct (x <? y); [discriminate|]. now destruct (y <? x).
Qed.

Lemma insert_length (x : string) (s : t) :
  (List.length (insert x s) <= S (List.length s))%nat.
Proof.
  induction s as [|y s IH]; simpl; trivial.
  destruct (x <? y); simpl; [lia|]. destruct (y <? x); simpl; lia.
Qed.

Lemma insert_range_length (range : list string) (s : t) :
  (List.length (insert_range range s)
   <= List.length range + List.length s)%nat.
Proof.
  unfold insert_range. revert s.
  induction range as [|x range IH]; intros s; simpl; trivial.
  pose proof (IH (insert x s)). pose proof (insert_length x s). lia.
Qed.

Lemma insert_range_not_nil (x : string) (range : list string) (s : t) :
  insert_range (x :: range) s <> [].
Proof.
  unfold insert_range. cbn [fold_left].
  pose proof (insert_not_nil x s) as H. revert H.
  generalize (insert x s). induction range as [|y range IH]; intros u Hu.
  - exact Hu.
  - cbn [fold_left]. apply IH. apply insert_not_nil.
Qed.

Lemma common_comm (a b : list string) :
  ordered a -> ordered b -> common a b = common b a.
Proof.
  intros Ha Hb. apply ordered_ext; try now apply filter_ordered.
  intros x. rewrite !In_common. tauto.
Qed.

(** The tokens of [a] in [b] inserted into those that are not, or the
    other way round, give [a] back. *)
Lemma insert_range_partition (a b : list string) :
  ordered a ->
  insert_range (only_left a b) (common a b) = a
  /\ insert_range (common a b) (only_left a b) = a.
Proof.
  intros Ha.
  assert (forall x, In x a <-> In x (only_left a b) \/ In x (common a b)) as E.
  { intros x. rewrite In_only_left, In_common.
    destruct (mem x b) eqn:E; [apply mem_In in E|apply mem_false in E]; tauto. }
  split; apply ordered_ext; trivial.
  - apply insert_range_ordered. now apply filter_ordered.
  - intros x. rewrite In_insert_range. symmetry. apply E.
  - apply insert_range_ordered. now apply filter_ordered.
  - intros x. rewrite In_insert_range, E. tauto.
Qed.

Lemma common_only_left_nil (a b : list string) : common (only_left a b) b = [].
Proof.
  unfold common, only_left. induction a as [|x a IH]; simpl; trivial.
  destruct (mem x b) eqn:E; simpl; trivial. now rewrite E.
Qed.

Lemma only_left_self (a : list string) : only_left a a = [].
Proof.
  unfold only_left.
  assert (forall l, (forall x, In x l -> In x a) ->
                    filter (fun x => negb (mem x a)) l = []) as H.
  { induction l as [|x l IH]; intros Hl; simpl; trivial.
    rewrite (proj2 (mem_In x a)) by (apply Hl; now left). simpl.
    apply IH. intros y Hy. apply Hl. now right. }
  now apply H.
Qed.

(** Inserting tokens that are there already changes nothing. *)
Lemma insert_range_absorb (range : list string) (s : t) :
  ordered s -> (forall x, In x range -> In x s) -> insert_range range s = s.
Proof.
  intros Hs Hin. apply ordered_ext; trivial.
  - now apply insert_range_ordered.
  - intros x. rewrite In_insert_range. split; [|tauto].
    intros [H|H]; auto.
Qed.

End AlgebraFacts.

Import AlgebraFacts.

(** X1: the two constructors from a collection give a set that satisfies
    the class invariant and has at most as many tokens as raw tokens were
    given; it is empty exactly when no raw token was given; and
    [Contains] finds the canonical form of every raw token. *)
Theorem constructor_establishes_invariant (scopes : list string) :
  ScopeSet_ok (ScopeSet_of_vector scopes)
  /\ ScopeSet_ok (ScopeSet_of_set scopes)
  /\ (List.length (m_scopes (ScopeSet_of_vector scopes))
      <= List.length scopes)%nat
  /\ (empty (ScopeSet_of_vector scopes) = 1%Z <-> scopes = [])
  /\ (forall raw,
         In raw scopes ->
         Contains (ScopeSet_of_vector scopes) (SLPGetCanonicalString raw)
         = true).
Proof.
  split; [apply ScopeSet_of_vector_ok|].
  split; [apply ScopeSet_of_vector_ok|].
  split; [|split].
  - unfold ScopeSet_of_vector. cbn [m_scopes].
    rewrite insert_canonical_forms.
    pose proof (insert_range_length (map SLPGetCanonicalString scopes) []) as H.
    rewrite length_map in H. simpl in H. lia.
  - unfold empty, ScopeSet_of_vector. cbn [m_scopes].
    rewrite insert_canonical_forms.
    destruct scopes as [|raw scopes]; [now split|].
    cbn [map].
    destruct (StdSet.insert_range
                (SLPGetCanonicalString raw :: map SLPGetCanonicalString scopes)
                []) eqn:E.
    + now apply insert_range_not_nil in E.
    + split; discriminate.
  - intros raw Hin. apply Contains_In; [apply ScopeSet_of_vector_ok|].
    apply In_ScopeSet_of_vector. now exists raw.
Qed.

(** X2: for [B] an object of its own, [A.DifferenceUpdate(B)] returns what
    [A.Intersection(B)] returns and leaves in [A] what [A.Difference(B)]
    returns. *)
Theorem DifferenceUpdate_is_Intersection_and_Difference (A B : ScopeSet) :
  ScopeSet_ok A -> StdSet.ordered (m_scopes B) ->
  DifferenceUpdate A (Other B) = Some (Intersection A B, Difference A B).
Proof.
  intros HA HB.
  now rewrite DifferenceUpdate_spec, Intersection_common, Difference_only_left.
Qed.

Lemma DifferenceUpdate_is_Intersection_and_Difference_witness :
  ScopeSet_ok scopes_xyz /\ StdSet.ordered (m_scopes scopes_y)
  /\ DifferenceUpdate scopes_xyz (Other scopes_y)
     = Some (Intersection scopes_xyz scopes_y, Difference scopes_xyz scopes_y).
Proof.
  assert (Hx : ScopeSet_ok scopes_xyz) by by_evaluation.
  assert (Hy : StdSet.ordered (m_scopes scopes_y)) by by_evaluation.
  split; [exact Hx|]. split; [exact Hy|].
  exact (DifferenceUpdate_is_Intersection_and_Difference _ _ Hx Hy).
Defined.

(** X3: for [B] an object of its own, [A.DifferenceUpdate(B)] succeeds;
    what is left of [A] shares no token with [B] nor with the returned
    set, and [Update] with the returned set gives [A] back. *)
Theorem DifferenceUpdate_undone_by_Update (A B : ScopeSet) :
  ScopeSet_ok A -> StdSet.ordered (m_scopes B) ->
  exists removed A',
    DifferenceUpdate A (Other B) = Some (removed, A')
    /\ Intersects A' B = false
    /\ Intersects A' removed = false
    /\ Update A' removed = A.
Proof.
  intros HA HB. pose proof (proj1 HA) as Ho.
  eexists. eexists. split; [now apply DifferenceUpdate_spec|].
  assert (forall C, StdSet.ordered (m_scopes C) ->
            (forall x, In x (m_scopes C) -> In x (m_scopes B)) ->
            Intersects {| m_scopes := only_left (m_scopes A) (m_scopes B) |} C
            = false) as Hdisjoint.
  { intros C HC Hsub. apply not_true_is_false. intros H.
    apply Intersects_exists in H as (x & H1 & H2); trivial.
    - cbn [m_scopes] in H1. apply In_only_left in H1 as [_ H1]. auto.
    - cbn [m_scopes]. now apply filter_ordered. }
  split; [now apply Hdisjoint|]. split.
  - apply Hdisjoint; cbn [m_scopes]; [now apply filter_ordered|].
    intros x Hx. now apply In_common in Hx.
  - destruct A as [a]. unfold Update. cbn [m_scopes] in *. f_equal.
    now apply insert_range_partition.
Qed.

Lemma DifferenceUpdate_undone_by_Update_witness :
  ScopeSet_ok scopes_xyz /\ StdSet.ordered (m_scopes scopes_y)
  /\ exists removed A',
       DifferenceUpdate scopes_xyz (Other scopes_y) = Some (removed, A')
       /\ Update A' removed = scopes_xyz.
Proof.
  assert (Hx : ScopeSet_ok scopes_xyz) by by_evaluation.
  assert (Hy : StdSet.ordered (m_scopes scopes_y)) by by_evaluation.
  split; [exact Hx|]. split; [exact Hy|].
  destruct (DifferenceUpdate_undone_by_Update _ _ Hx Hy)
    as (removed & A' & Hcall & _ & _ & Hback).
  exists removed, A'. now split.
Defined.

(** X4: [Intersection] does not depend on the order of its operands; a set
    intersected with itself is that set, with the empty set the empty set;
    intersecting a second time with the same set changes nothing. *)
Theorem Intersection_laws (A B : ScopeSet) :
  ScopeSet_ok A -> ScopeSet_ok B ->
  Intersection A B = Intersection B A
  /\ Intersection A A = A
  /\ Intersection A ScopeSet_default = ScopeSet_default
  /\ Intersection ScopeSet_default A = ScopeSet_default
  /\ Intersection (Intersection A B) B = Intersection A B.
Proof.
  intros HA HB. pose proof (proj1 HA) as Ha. pose proof (proj1 HB) as Hb.
  assert (ScopeSet_ok ScopeSet_default) as Hd by (split; constructor).
  assert (StdSet.ordered (m_scopes ScopeSet_default)) as Hd' by constructor.
  assert (ScopeSet_ok {| m_scopes := common (m_scopes A) (m_scopes B) |})
    as Hc by now apply ScopeSet_ok_filter.
  rewrite (Intersection_common A B), (Intersection_common B A),
    (Intersection_common A A), (Intersection_common A ScopeSet_default),
    (Intersection_common ScopeSet_default A) by trivial.
  rewrite Intersection_common by trivial.
  cbn [m_scopes ScopeSet_default].
  split; [now rewrite common_comm|].
  split; [destruct A; cbn [m_scopes]; now rewrite common_self|].
  split; [now rewrite common_nil_r|]. split; [reflexivity|].
  f_equal. unfold common at 1. apply forallb_filter_id, forallb_forall.
  intros x Hx. apply In_common in Hx. now apply mem_In.
Qed.

Lemma Intersection_laws_witness :
  ScopeSet_ok scopes_local /\ ScopeSet_ok scopes_remote
  /\ Intersection scopes_local scopes_remote
     = Intersection scopes_remote scopes_local.
Proof.
  assert (Hl : ScopeSet_ok scopes_local) by by_evaluation.
  assert (Hr : ScopeSet_ok scopes_remote) by by_evaluation.
  split; [exact Hl|]. split; [exact Hr|].
  exact (proj1 (Intersection_laws _ _ Hl Hr)).
Defined.

(** X5: [A.Difference(A)] is empty and [A.Difference] of the empty set is
    [A]; [A.Difference(B)] shares no token with [B], so taking the
    difference with [B] again changes nothing; and [A.Difference(B)] is
    [A] exactly when [A] and [B] do not intersect. *)
Theorem Difference_laws (A B : ScopeSet) :
  ScopeSet_ok A -> StdSet.ordered (m_scopes B) ->
  Difference A A = ScopeSet_default
  /\ Difference A ScopeSet_default = A
  /\ Intersects (Difference A B) B = false
  /\ Difference (Difference A B) B = Difference A B
  /\ (Difference A B = A <-> Intersects A B = false).
Proof.
  intros HA HB. pose proof (proj1 HA) as Ha.
  assert (StdSet.ordered (m_scopes ScopeSet_default)) as Hd by constructor.
  assert (ScopeSet_ok {| m_scopes := only_left (m_scopes A) (m_scopes B) |})
    as Hl by now apply ScopeSet_ok_filter.
  rewrite (Difference_only_left A A), (Difference_only_left A B),
    (Difference_only_left A ScopeSet_default) by trivial.
  rewrite Difference_only_left by trivial.
  cbn [m_scopes ScopeSet_default].
  split; [now rewrite only_left_self|].
  split; [destruct A; cbn [m_scopes]; now rewrite only_left_nil_r|].
  assert (Intersects {| m_scopes := only_left (m_scopes A) (m_scopes B) |} B
          = false) as Hdisjoint.
  { unfold Intersects. cbn [m_scopes].
    rewrite MergeFacts.Intersects_loop_common; trivial; [|apply Hl].
    now rewrite common_only_left_nil. }
  split; [exact Hdisjoint|]. split.
  - f_equal. unfold only_left at 1. apply forallb_filter_id, forallb_forall.
    intros x Hx. apply In_only_left in Hx. now apply negb_true_iff, mem_false.
  - split.
    + intros E. now rewrite E in Hdisjoint.
    + intros H. destruct A as [a]. cbn [m_scopes] in *. f_equal.
      unfold only_left. apply forallb_filter_id, forallb_forall.
      intros x Hx. apply negb_true_iff, mem_false. intros Hb.
      apply not_true_iff_false in H. apply H.
      apply Intersects_exists; trivial. now exists x.
Qed.

Lemma Difference_laws_witness :
  ScopeSet_ok scopes_local /\ StdSet.ordered (m_scopes scopes_remote)
  /\ Intersects (Difference scopes_local scopes_remote) scopes_remote = false.
Proof.
  assert (Hl : ScopeSet_ok scopes_local) by by_evaluation.
  assert (Hr : StdSet.ordered (m_scopes scopes_remote)) by by_evaluation.
  split; [exact Hl|]. split; [exact Hr|].
  exact (proj1 (proj2 (proj2 (Difference_laws _ _ Hl Hr)))).
Defined.

(** X6: [A.Intersection(B)] and [A.Difference(B)] split [A]: [Update] of
    either one with the other gives [A], and [A.IntersectionCount(B)] plus
    the size of [A.Difference(B)] is the size of [A], as [unsigned int]. *)
Theorem Intersection_Difference_partition (A B : ScopeSet) :
  ScopeSet_ok A -> StdSet.ordered (m_scopes B) ->
  Update (Intersection A B) (Difference A B) = A
  /\ Update (Difference A B) (Intersection A B) = A
  /\ to_uint (IntersectionCount A B + size (Difference A B)) = size A.
Proof.
  intros HA HB. pose proof (proj1 HA) as Ha.
  rewrite Intersection_common, Difference_only_left by trivial.
  rewrite IntersectionCount_common by trivial.
  destruct A as [a]. unfold Update, size. cbn [m_scopes] in *.
  destruct (insert_range_partition a (m_scopes B) Ha) as [E1 E2].
  rewrite E1, E2. split; [reflexivity|]. split; [reflexivity|].
  unfold to_uint, UINT_MODULUS. rewrite <- Zplus_mod, <- Nat2Z.inj_add.
  unfold common, only_left. now rewrite filter_length.
Qed.

Lemma Intersection_Difference_partition_witness :
  ScopeSet_ok scopes_local /\ StdSet.ordered (m_scopes scopes_remote)
  /\ Update (Intersection scopes_local scopes_remote)
            (Difference scopes_local scopes_remote) = scopes_local.
Proof.
  assert (Hl : ScopeSet_ok scopes_local) by by_evaluation.
  assert (Hr : StdSet.ordered (m_scopes scopes_remote)) by by_evaluation.
  split; [exact Hl|]. split; [exact Hr|].
  exact (proj1 (Intersection_Difference_partition _ _ Hl Hr)).
Defined.

(** X7: [Update] with the set itself, with the empty set, or a second time
    with the same set changes nothing; the empty set updated with an
    ordered set is that set; and [A.Update(B)] leaves [A] as it is exactly
    when every token of [B] is in [A]. *)
Theorem Update_laws (A B : ScopeSet) :
  StdSet.ordered (m_scopes A) ->
  Update A A = A
  /\ Update A ScopeSet_default = A
  /\ Update (Update A B) B = Update A B
  /\ (StdSet.ordered (m_scopes B) -> Update ScopeSet_default B = B)
  /\ (Update A B = A
      <-> forall token, In token (m_scopes B) -> In token (m_scopes A)).
Proof.
  intros Ha.
  assert (forall C D : ScopeSet,
             StdSet.ordered (m_scopes C) ->
             (forall x, In x (m_scopes D) -> In x (m_scopes C)) ->
             Update C D = C) as Habsorb.
  { intros [c] [d] Hc Hsub. unfold Update. cbn [m_scopes] in *. f_equal.
    now apply insert_range_absorb. }
  split; [now apply Habsorb|].
  split; [destruct A; reflexivity|]. split; [|split].
  - apply Habsorb; [now apply Update_ordered|].
    intros x Hx. apply In_Update. now right.
  - intros Hb. destruct B as [b]. unfold Update. cbn [m_scopes] in *.
    f_equal. now apply insert_range_nil.
  - split; [|now apply Habsorb].
    intros E x Hx. rewrite <- E. apply In_Update. now right.
Qed.

Lemma Update_laws_witness :
  StdSet.ordered (m_scopes scopes_local)
  /\ Update (Update scopes_local scopes_remote) scopes_remote
     = Update scopes_local scopes_remote.
Proof.
  assert (Hl : StdSet.ordered (m_scopes scopes_local)) by by_evaluation.
  split; [exact Hl|].
  exact (proj1 (proj2 (proj2 (Update_laws scopes_local scopes_remote Hl)))).
Defined.

(** X8: after [A.Update(B)], [Contains] finds a token exactly when it
    found it in [A] or finds it in [B]. *)
Theorem Contains_after_Update (A B : ScopeSet) (token : string) :
  StdSet.ordered (m_scopes A) -> StdSet.ordered (m_scopes B) ->
  Contains (Update A B) token = Contains A token || Contains B token.
Proof.
  intros Ha Hb. apply eq_true_iff_eq.
  rewrite orb_true_iff, !Contains_In; trivial.
  - apply In_Update.
  - now apply Update_ordered.
Qed.

Lemma Contains_after_Update_witness :
  StdSet.ordered (m_scopes scopes_local)
  /\ StdSet.ordered (m_scopes scopes_remote)
  /\ Contains (Update scopes_local scopes_remote) "west-wing"
     = Contains scopes_local "west-wing"
       || Contains scopes_remote "west-wing".
Proof.
  assert (Hl : StdSet.ordered (m_scopes scopes_local)) by by_evaluation.
  assert (Hr : StdSet.ordered (m_scopes scopes_remote)) by by_evaluation.
  split; [exact Hl|]. split; [exact Hr|].
  exact (Contains_after_Update scopes_local scopes_remote "west-wing" Hl Hr).
Defined.

(** X9: [IntersectionCount] does not depend on the order of its operands,
    and when the sizes fit in an [unsigned int] it is at most the size of
    either set. *)
Theorem IntersectionCount_symmetric_bounded (A B : ScopeSet) :
  StdSet.ordered (m_scopes A) -> StdSet.ordered (m_scopes B) ->
  IntersectionCount A B = IntersectionCount B A
  /\ ((Z.of_nat (List.length (m_scopes A)) < UINT_MODULUS)%Z ->
      (Z.of_nat (List.length (m_scopes B)) < UINT_MODULUS)%Z ->
      (0 <= IntersectionCount A B <= Z.min (size A) (size B))%Z).
Proof.
  intros Ha Hb. rewrite !IntersectionCount_common by trivial.
  split; [now rewrite common_comm|].
  intros HsA HsB. unfold size.
  pose proof (common_length_le (m_scopes A) (m_scopes B)) as H1.
  pose proof (common_length_le (m_scopes B) (m_scopes A)) as H2.
  rewrite <- (common_comm (m_scopes A) (m_scopes B)) in H2 by trivial.
  rewrite !MergeFacts.to_uint_small by lia. lia.
Qed.

Lemma IntersectionCount_symmetric_bounded_witness :
  StdSet.ordered (m_scopes scopes_local)
  /\ StdSet.ordered (m_scopes scopes_remote)
  /\ IntersectionCount scopes_local scopes_remote
     = IntersectionCount scopes_remote scopes_local.
Proof.
  assert (Hl : StdSet.ordered (m_scopes scopes_local)) by by_evaluation.
  assert (Hr : StdSet.ordered (m_scopes scopes_remote)) by by_evaluation.
  split; [exact Hl|]. split; [exact Hr|].
  exact (proj1 (IntersectionCount_symmetric_bounded _ _ Hl Hr)).
Defined.

(** X10: [operator==] holds exactly when the two containers are the same
    sequence, so it is reflexive, symmetric and transitive; a copy is equal
    to its original; [operator!=] holds on ordered sets exactly when some
    token is in one of them only. *)
Theorem operator_eq_neq (A B : ScopeSet) :
  (ScopeSet_eq A B = true <-> A = B)
  /\ ScopeSet_eq (ScopeSet_copy A) A = true
  /\ (StdSet.ordered (m_scopes A) -> StdSet.ordered (m_scopes B) ->
      (ScopeSet_neq A B = true
       <-> exists token,
             (In token (m_scopes A) /\ ~ In token (m_scopes B))
             \/ (In token (m_scopes B) /\ ~ In token (m_scopes A)))).
Proof.
  assert (forall C D, ScopeSet_eq C D = true <-> C = D) as Heq.
  { intros [c] [d]. unfold ScopeSet_eq. cbn [m_scopes]. rewrite equal_eq.
    split; [now intros ->|now intros [= ->]]. }
  split; [apply Heq|]. split; [apply Heq; now destruct A|].
  intros Ha Hb. unfold ScopeSet_neq. rewrite negb_true_iff. split.
  - intros Hne.
    destruct (only_left (m_scopes A) (m_scopes B)) as [|x l] eqn:E1.
    + destruct (only_left (m_scopes B) (m_scopes A)) as [|y l] eqn:E2.
      * assert (m_scopes A = m_scopes B) as E.
        { assert (forall c d x, only_left c d = [] -> In x c -> In x d) as Hsub.
          { intros c d x E Hx. destruct (mem x d) eqn:M; [now apply mem_In|].
            apply (proj1 (mem_false x d)) in M.
            assert (In x (only_left c d)) as F by now apply In_only_left.
            rewrite E in F. destruct F. }
          apply ordered_ext; trivial. intros x. split; eauto. }
        apply equal_eq in E. congruence.
      * exists y. right. apply In_only_left. rewrite E2. now left.
    + exists x. left. apply In_only_left. rewrite E1. now left.
  - intros (x & H). apply not_true_iff_false. intros E.
    apply equal_eq in E. rewrite E in H. tauto.
Qed.

Lemma operator_eq_neq_witness :
  StdSet.ordered (m_scopes scopes_local)
  /\ StdSet.ordered (m_scopes scopes_remote)
  /\ ScopeSet_neq scopes_local scopes_remote = true.
Proof.
  assert (Hl : StdSet.ordered (m_scopes scopes_local)) by by_evaluation.
  assert (Hr : StdSet.ordered (m_scopes scopes_remote)) by by_evaluation.
  split; [exact Hl|]. split; [exact Hr|].
  apply (proj2 (proj2 (operator_eq_neq scopes_local scopes_remote)) Hl Hr).
  exists "default". left. split; [now left|].
  intros [H|[H|[]]]; discriminate.
Defined.

(** X11: to ask whether a raw token is in a set, [Intersects] with the set
    built from that token answers what [Contains] answers for its
    canonical form. *)
Theorem Intersects_singleton_Contains (A : ScopeSet) (raw : string) :
  StdSet.ordered (m_scopes A) ->
  Intersects A (ScopeSet_of_vector [raw])
  = Contains A (SLPGetCanonicalString raw)
  /\ Intersects (ScopeSet_of_vector [raw]) A
     = Contains A (SLPGetCanonicalString raw).
Proof.
  intros Ha.
  assert (StdSet.ordered (m_scopes (ScopeSet_of_vector [raw]))) as Hr
      by apply ScopeSet_of_vector_ok.
  split; apply eq_true_iff_eq;
    rewrite Intersects_exists, Contains_In by trivial;
    cbn [ScopeSet_of_vector m_scopes fold_left StdSet.insert].
  - split.
    + intros (x & Hx & [<-|[]]). exact Hx.
    + intros H. eexists. split; [exact H|now left].
  - split.
    + intros (x & [<-|[]] & Hx). exact Hx.
    + intros H. eexists. split; [now left|exact H].
Qed.

Lemma Intersects_singleton_Contains_witness :
  StdSet.ordered (m_scopes scopes_local)
  /\ Intersects scopes_local (ScopeSet_of_vector [" Default"])
     = Contains scopes_local (SLPGetCanonicalString " Default").
Proof.
  assert (Hl : StdSet.ordered (m_scopes scopes_local)) by by_evaluation.
  split; [exact Hl|].
  exact (proj1 (Intersects_singleton_Contains scopes_local " Default" Hl)).
Defined.

(** * Properties of UniverseStore *)

(** ** std::map<int, V> *)

Module StdMapFacts.
Import StdMap.

Section Map.
Context {V : Type}.
Implicit Types (m : t V) (k : Z) (v : V).

Lemma map_ordered_inv k v m :
  ordered ((k, v) :: m) ->
  ordered m /\ forall k' v', In (k', v') m -> (k < k')%Z.
Proof.
  unfold ordered. cbn [map fst]. intros H. inversion H; subst.
  split; trivial. intros k' v' Hin.
  match goal with F : Forall _ _ |- _ => rewrite Forall_forall in F; apply F end.
  change k' with (fst (k', v')). now apply in_map.
Qed.

Lemma map_orderedb_ordered m : orderedb m = true -> ordered m.
Proof.
  unfold ordered. induction m as [|[k v] m IH]; cbn [orderedb map fst].
  - constructor.
  - rewrite andb_true_iff, forallb_forall. intros [Hk Hm].
    constructor; [now apply IH|]. apply Forall_forall. intros k' Hk'.
    apply in_map_iff in Hk' as (entry & <- & Hin).
    now apply Z.ltb_lt, Hk.
Qed.

Lemma find_In k v m : ordered m -> find k m = Some v <-> In (k, v) m.
Proof.
  induction m as [|[k' v'] m IH]; intros Hm; cbn [find].
  - split; [discriminate|intros []].
  - apply map_ordered_inv in Hm as [Hm Hlt].
    destruct (Z.ltb_spec k' k); [|destruct (Z.ltb_spec k k')].
    + rewrite IH by trivial. split; [now right|].
      intros [[= -> ->]|Hin]; [lia|trivial].
    + split; [discriminate|].
      intros [[= -> ->]|Hin]; [lia|]. apply Hlt in Hin. lia.
    + assert (k' = k) as -> by lia. split.
      * intros [= ->]. now left.
      * intros [[= ->]|Hin]; trivial. apply Hlt in Hin. lia.
Qed.

Lemma find_insert k v m :
  find k m = None -> find k (insert (k, v) m) = Some v.
Proof.
  induction m as [|[k' v'] m IH]; cbn [find insert fst].
  - intros _. now rewrite Z.ltb_irrefl.
  - destruct (Z.ltb_spec k' k); [|destruct (Z.ltb_spec k k')].
    + intros Hf. destruct (Z.ltb_spec k k'); [lia|]. cbn [find].
      destruct (Z.ltb_spec k' k); [|lia]. now apply IH.
    + intros _. cbn [find]. now rewrite Z.ltb_irrefl.
    + discriminate.
Qed.

Lemma find_insert_other k k' v m :
  k' <> k -> find k' (insert (k, v) m) = find k' m.
Proof.
  intros Hne. induction m as [|[k1 v1] m IH]; cbn [find insert fst].
  - destruct (Z.ltb_spec k k'); trivial. destruct (Z.ltb_spec k' k); [trivial|lia].
  - destruct (Z.ltb_spec k k1); [|destruct (Z.ltb_spec k1 k)]; cbn [find].
    + destruct (Z.ltb_spec k k'); trivial.
      destruct (Z.ltb_spec k' k); [|lia].
      destruct (Z.ltb_spec k1 k'); [lia|].
      destruct (Z.ltb_spec k' k1); [trivial|lia].
    + now rewrite IH.
    + reflexivity.
Qed.

Lemma map_In_insert (entry entry' : Z * V) m :
  In entry' (insert entry m) -> entry' = entry \/ In entry' m.
Proof.
  induction m as [|[k1 v1] m IH]; cbn [insert].
  - intros [<-|[]]. now left.
  - destruct (Z.ltb (fst entry) k1); [intros [<-|H]; auto|].
    destruct (Z.ltb k1 (fst entry)); [|auto].
    intros [<-|H]; [right; now left|].
    destruct (IH H); auto. right. now right.
Qed.

Lemma map_insert_ordered (entry : Z * V) m :
  ordered m -> ordered (insert entry m).
Proof.
  unfold ordered. induction m as [|[k1 v1] m IH]; cbn [insert map fst].
  - intros _. repeat constructor.
  - intros Hm. inversion Hm as [|? ? Hm' Hk1]; subst.
    destruct (Z.ltb_spec (fst entry) k1); [|destruct (Z.ltb_spec k1 (fst entry))];
      cbn [map fst]; trivial.
    + constructor; trivial. constructor; trivial.
      revert Hk1. apply Forall_impl. intros; lia.
    + constructor; [now apply IH|].
      apply Forall_forall. intros k' Hk'.
      apply in_map_iff in Hk' as (e & <- & Hin).
      apply map_In_insert in Hin as [->|Hin]; trivial.
      rewrite Forall_forall in Hk1. apply Hk1. now apply in_map.
Qed.

Lemma In_erase (entry : Z * V) k m : In entry (erase k m) -> In entry m.
Proof.
  induction m as [|[k1 v1] m IH]; cbn [erase]; trivial.
  destruct (Z.ltb k1 k); [intros [<-|Hin]; [now left|right; auto]|].
  destruct (Z.ltb k k1); trivial. now right.
Qed.

Lemma erase_ordered k m : ordered m -> ordered (erase k m).
Proof.
  unfold ordered. induction m as [|[k1 v1] m IH]; cbn [erase map fst]; trivial.
  intros Hm. inversion Hm as [|? ? Hm' Hk1]; subst.
  destruct (Z.ltb k1 k); [|destruct (Z.ltb k k1); trivial].
  cbn [map fst]. constructor; [now apply IH|].
  apply Forall_forall. intros k' Hk'.
  apply in_map_iff in Hk' as (e & <- & Hin). apply In_erase in Hin.
  rewrite Forall_forall in Hk1. apply Hk1. now apply in_map.
Qed.

Lemma find_below k k1 v1 m :
  (k < k1)%Z -> ordered ((k1, v1) :: m) -> find k m = None.
Proof.
  intros Hlt Hm. apply map_ordered_inv in Hm as [Hm Hall].
  destruct (find k m) as [v|] eqn:E; trivial.
  apply find_In in E; trivial. apply Hall in E. lia.
Qed.

Lemma find_erase k m : ordered m -> find k (erase k m) = None.
Proof.
  induction m as [|[k1 v1] m IH]; intros Hm; cbn [erase]; trivial.
  destruct (Z.ltb_spec k1 k); [|destruct (Z.ltb_spec k k1)]; cbn [find].
  - destruct (Z.ltb_spec k1 k); [|lia]. apply IH. now apply map_ordered_inv in Hm.
  - destruct (Z.ltb_spec k1 k); [lia|]. destruct (Z.ltb_spec k k1); [trivial|lia].
  - assert (k1 = k) as -> by lia.
    destruct (find k m) as [v|] eqn:E; trivial.
    apply map_ordered_inv in Hm as [Hm Hall].
    apply find_In in E; trivial. apply Hall in E. lia.
Qed.

Lemma find_erase_other k k' m :
  ordered m -> k' <> k -> find k' (erase k m) = find k' m.
Proof.
  intros Hm Hne. induction m as [|[k1 v1] m IH]; cbn [erase]; trivial.
  destruct (Z.ltb_spec k1 k); [|destruct (Z.ltb_spec k k1)]; cbn [find]; trivial.
  - rewrite IH; trivial. now apply map_ordered_inv in Hm.
  - assert (k1 = k) as -> by lia.
    destruct (Z.ltb_spec k k'); trivial.
    destruct (Z.ltb_spec k' k); [|lia].
    now apply find_below with k v1.
Qed.

End Map.

End StdMapFacts.

(** ** Memory and keys *)

Module MemoryFacts.
Import lla.

Section Memory.
Context {U : Type}.
Implicit Types (h : memory U) (p q : pointer).

Lemma load_live h p u : load h p = Some u -> (p < List.length h)%nat.
Proof.
  unfold load. destruct (nth_error h p) eqn:E; [|discriminate].
  intros _. apply nth_error_Some. congruence.
Qed.

Lemma load_fresh h : load h (List.length h) = None.
Proof.
  unfold load. now rewrite (proj2 (nth_error_None h (List.length h))).
Qed.

Lemma load_alloc h u : load (snd (alloc h u)) (fst (alloc h u)) = Some u.
Proof.
  unfold alloc, load. cbn [fst snd].
  rewrite nth_error_app2, Nat.sub_diag by lia. reflexivity.
Qed.

Lemma load_alloc_other h u p :
  p <> List.length h -> load (snd (alloc h u)) p = load h p.
Proof.
  unfold alloc, load. cbn [snd]. intros Hne.
  destruct (Nat.lt_ge_cases p (List.length h)).
  - now rewrite nth_error_app1.
  - rewrite (proj2 (nth_error_None h p)) by trivial.
    rewrite (proj2 (nth_error_None (h ++ [Some u]) p)); trivial.
    rewrite length_app. simpl. lia.
Qed.

Lemma load_write h p cell :
  (p < List.length h)%nat -> load (write h p cell) p = cell.
Proof.
  unfold load. revert p. induction h as [|c h IH]; intros [|p] Hp;
    simpl in *; try lia; trivial.
  apply IH. lia.
Qed.

Lemma load_write_other h p q cell :
  p <> q -> load (write h p cell) q = load h q.
Proof.
  unfold load. revert p q. induction h as [|c h IH]; intros [|p] [|q] Hne;
    simpl; trivial; try congruence.
  apply IH. congruence.
Qed.

Lemma write_length h p cell : List.length (write h p cell) = List.length h.
Proof.
  revert p. induction h as [|c h IH]; intros [|p]; simpl; trivial.
  now rewrite IH.
Qed.

End Memory.

(** *** The keys under which the settings of a universe are kept *)

Lemma decimal_inj (a b : Z) : decimal a = decimal b -> a = b.
Proof.
  unfold decimal. intros E. apply DecimalZ.to_int_inj.
  assert (forall z, NilZero.int_of_string (NilZero.string_of_int (Z.to_int z))
                    = Some (Z.to_int z)) as H.
  { intros z. apply NilZero.isi; destruct z; simpl; try discriminate;
      intros [= F]; now apply DecimalPos.Unsigned.to_uint_nonnil in F. }
  apply (f_equal NilZero.int_of_string) in E. rewrite !H in E. congruence.
Qed.

Lemma list_ascii_of_append (a b : string) :
  list_ascii_of_string (a ++ b)%string
  = (list_ascii_of_string a ++ list_ascii_of_string b)%list.
Proof. induction a as [|c a IH]; simpl; trivial. now rewrite IH. Qed.

Lemma list_ascii_of_string_inj (a b : string) :
  list_ascii_of_string a = list_ascii_of_string b -> a = b.
Proof.
  intros E. apply (f_equal string_of_list_ascii) in E.
  now rewrite !string_of_list_ascii_of_string in E.
Qed.

Lemma append_inv_tail (a b tail : string) :
  (a ++ tail = b ++ tail)%string -> a = b.
Proof.
  intros E. apply list_ascii_of_string_inj.
  apply (f_equal list_ascii_of_string) in E.
  rewrite !list_ascii_of_append in E. now apply app_inv_tail in E.
Qed.

Lemma name_key_inj (a b : Z) : name_key a = name_key b -> a = b.
Proof.
  unfold name_key. intros E. apply append_inv_tail in E.
  simpl in E. injection E as E. now apply decimal_inj.
Qed.

Lemma merge_key_inj (a b : Z) : merge_key a = merge_key b -> a = b.
Proof.
  unfold merge_key. intros E. apply append_inv_tail in E.
  simpl in E. injection E as E. now apply decimal_inj.
Qed.

Lemma name_key_not_merge_key (a b : Z) : name_key a <> merge_key b.
Proof.
  unfold name_key, merge_key. intros E.
  apply (f_equal list_ascii_of_string) in E.
  rewrite !list_ascii_of_append in E.
  apply (f_equal (@rev ascii)) in E. rewrite !rev_app_distr in E.
  simpl in E. discriminate.
Qed.

End MemoryFacts.

(** ** The member functions of UniverseStore *)

Module StoreFacts.
Import lla StdMapFacts MemoryFacts.

Section Store.
Context {U P : Type} `{UniverseClass U} `{PreferencesClass P}.
Implicit Types (st : UniverseStore U P) (p q : pointer) (u : U).

Lemma same_but_object_refl p st : same_but_object p st st.
Proof. now repeat split. Qed.

Lemma modify_spec p (f : U -> U) st u :
  load (objects st) p = Some u ->
  exists st',
    modify p f st = Some (tt, st')
    /\ load (objects st') p = Some (f u)
    /\ same_but_object p st st'.
Proof.
  intros Hu. unfold modify. rewrite Hu. eexists. split; [reflexivity|].
  cbn [objects m_universe_map m_preferences]. split.
  - apply load_write. now apply load_live with u.
  - repeat split; [apply write_length|].
    intros q Hq. apply load_write_other. congruence.
Qed.

Lemma same_but_object_trans p st1 st2 st3 :
  same_but_object p st1 st2 -> same_but_object p st2 st3 ->
  same_but_object p st1 st3.
Proof.
  intros (A1 & A2 & A3 & A4) (B1 & B2 & B3 & B4).
  repeat split; try congruence. intros q Hq. now rewrite B4, A4.
Qed.

(** [RestoreUniverseSettings] on a live universe, with preferences: the
    name and the merge mode that the preferences hold under the keys of
    the universe are put into it; nothing else changes. *)
Lemma RestoreUniverseSettings_spec st p u prefs :
  m_preferences st = Some prefs ->
  load (objects st) p = Some u ->
  exists st',
    RestoreUniverseSettings (Some p) st = Some (0%Z, st')
    /\ load (objects st') p
       = Some (restore_mode (GetValue prefs (merge_key (UniverseId u)))
                 (restore_name (GetValue prefs (name_key (UniverseId u))) u))
    /\ same_but_object p st st'.
Proof.
  intros Hprefs Hu. unfold RestoreUniverseSettings, seq, deref.
  rewrite Hu. unfold preferences_get at 1. rewrite Hprefs.
  unfold restore_name, restore_mode.
  set (v1 := GetValue prefs (name_key (UniverseId u))).
  set (v2 := GetValue prefs (merge_key (UniverseId u))).
  assert (exists st1,
             (if v1 =? "" then ret tt else modify p (SetName v1)) st
             = Some (tt, st1)
             /\ load (objects st1) p
                = Some (if v1 =? "" then u else SetName v1 u)
             /\ same_but_object p st st1) as (st1 & -> & Hu1 & S1).
  { destruct (v1 =? "").
    - exists st. repeat split; trivial.
    - now apply modify_spec. }
  unfold preferences_get. rewrite (proj1 (proj2 S1)), Hprefs. fold v2.
  set (u1 := if v1 =? "" then u else SetName v1 u) in *.
  assert (exists st2,
             (if v2 =? "" then ret tt
              else if v2 =? "HTP" then modify p (SetMergeMode MERGE_HTP)
              else modify p (SetMergeMode MERGE_LTP)) st1
             = Some (tt, st2)
             /\ load (objects st2) p
                = Some (if v2 =? "" then u1
                        else if v2 =? "HTP" then SetMergeMode MERGE_HTP u1
                        else SetMergeMode MERGE_LTP u1)
             /\ same_but_object p st1 st2) as (st2 & -> & Hu2 & S2).
  { destruct (v2 =? ""); [|destruct (v2 =? "HTP")].
    - exists st1. repeat split; trivial.
    - now apply modify_spec.
    - now apply modify_spec. }
  exists st2. split; [reflexivity|]. split; [exact Hu2|].
  now apply same_but_object_trans with st1.
Qed.

(** [SaveUniverseSettings] on a live universe, with preferences: the name
    and the merge mode are written under the two keys of the universe. *)
Lemma SaveUniverseSettings_spec st p u prefs :
  m_preferences st = Some prefs ->
  load (objects st) p = Some u ->
  SaveUniverseSettings (Some p) st
  = Some (0%Z,
          {| m_universe_map := m_universe_map st;
             m_preferences :=
               Some (SetValue (merge_key (UniverseId u))
                              (mode_text (MergeMode u))
                              (SetValue (name_key (UniverseId u)) (Name u)
                                        prefs));
             objects := objects st |}).
Proof.
  intros Hprefs Hu.
  unfold SaveUniverseSettings, seq, deref, preferences_set, ret.
  rewrite Hu. cbv beta iota. rewrite Hu. cbv beta iota. rewrite Hprefs.
  cbn [objects m_preferences m_universe_map]. rewrite Hu.
  unfold mode_text. reflexivity.
Qed.

End Store.

End StoreFacts.

Module StoreLemmas.
Import lla StdMapFacts MemoryFacts StoreFacts.

Section Store.
Context {U P : Type} `{UniverseLaws U} `{PreferencesLaws P}.
Implicit Types (st : UniverseStore U P) (p q : pointer) (u : U).

Lemma UniverseId_restore (v1 v2 : string) u :
  UniverseId (restore_mode v2 (restore_name v1 u)) = UniverseId u.
Proof.
  unfold restore_mode, restore_name.
  destruct (v2 =? ""); [|destruct (v2 =? "HTP")];
    rewrite ?UniverseId_SetMergeMode; destruct (v1 =? "");
    now rewrite ?UniverseId_SetName.
Qed.

(** What was saved for a universe is what restoring gives a new one. *)
Lemma restore_saved (u fresh : U) :
  MergeMode (restore_mode (mode_text (MergeMode u))
               (restore_name (Name u) fresh)) = MergeMode u
  /\ Name (restore_mode (mode_text (MergeMode u))
             (restore_name (Name u) fresh))
     = (if Name u =? "" then Name fresh else Name u).
Proof.
  unfold restore_mode, restore_name.
  destruct (MergeMode u) eqn:M; cbn [mode_text String.eqb Ascii.eqb Bool.eqb];
    rewrite MergeMode_SetMergeMode, Name_SetMergeMode;
    (split; [reflexivity|]); destruct (Name u =? ""); trivial;
    now rewrite Name_SetName.
Qed.

Lemma GetUniverse_In st id p :
  store_ok st -> GetUniverse id st = Some p <-> In (id, p) (m_universe_map st).
Proof. intros [Ho _]. unfold GetUniverse. now apply find_In. Qed.

Lemma GetUniverse_live st id p :
  store_ok st -> GetUniverse id st = Some p ->
  exists u, load (objects st) p = Some u /\ UniverseId u = id.
Proof.
  intros Hok Hf. apply (proj2 Hok). now apply GetUniverse_In.
Qed.

(** Two ids under which the same pointer is found are the same id. *)
Lemma GetUniverse_inj st id id' p :
  store_ok st -> GetUniverse id st = Some p -> GetUniverse id' st = Some p ->
  id = id'.
Proof.
  intros Hok Hp Hp'.
  destruct (GetUniverse_live _ _ _ Hok Hp) as (u & Hu & <-).
  destruct (GetUniverse_live _ _ _ Hok Hp') as (u' & Hu' & <-).
  congruence.
Qed.

(** [GetUniverseOrCreate] for an id that is not in the store. *)
Lemma GetUniverseOrCreate_new st id :
  store_ok st -> GetUniverse id st = None ->
  exists st',
    let p : pointer := List.length (objects st) in
    GetUniverseOrCreate id st = Some (Some p, st')
    /\ load (objects st) p = None
    /\ m_universe_map st' = StdMap.insert (id, p) (m_universe_map st)
    /\ m_preferences st' = m_preferences st
    /\ load (objects st') p
       = Some (match m_preferences st with
               | Some prefs =>
                   restore_mode (GetValue prefs (merge_key id))
                     (restore_name (GetValue prefs (name_key id))
                                   (Universe_new id))
               | None => Universe_new id
               end)
    /\ (forall q, q <> p -> load (objects st') q = load (objects st) q)
    /\ store_ok st'.
Proof.
  intros Hok Hnone. set (p := List.length (objects st) : pointer).
  set (st1 := {| m_universe_map := StdMap.insert (id, p) (m_universe_map st);
                 m_preferences := m_preferences st;
                 objects := objects st ++ [Some (Universe_new id)] |}).
  assert (load (objects st1) p = Some (Universe_new id)) as Hp
      by apply (load_alloc (objects st) (Universe_new id)).
  assert (forall q, q <> p -> load (objects st1) q = load (objects st) q) as Hq
      by (intros q Hne; now apply (load_alloc_other (objects st))).
  assert (exists st',
             GetUniverseOrCreate id st = Some (Some p, st')
             /\ same_but_object p st1 st'
             /\ load (objects st') p
                = Some (match m_preferences st with
                        | Some prefs =>
                            restore_mode (GetValue prefs (merge_key id))
                              (restore_name (GetValue prefs (name_key id))
                                            (Universe_new id))
                        | None => Universe_new id
                        end)) as (st' & Hcall & (S1 & S2 & S3 & S4) & Hload).
  { destruct (m_preferences st) as [prefs|] eqn:Hprefs.
    - assert (GetUniverseOrCreate id st
              = seq (RestoreUniverseSettings (Some p))
                    (fun _ => ret (Some p)) st1) as ->.
      { unfold GetUniverseOrCreate. rewrite Hnone. unfold alloc.
        cbn [m_preferences]. now rewrite Hprefs. }
      destruct (RestoreUniverseSettings_spec st1 p _ prefs eq_refl Hp)
        as (st' & E & Hl & S).
      exists st'. unfold seq. rewrite E. split; [reflexivity|].
      split; trivial. now rewrite UniverseId_new in Hl.
    - assert (GetUniverseOrCreate id st = Some (Some p, st1)) as ->.
      { unfold GetUniverseOrCreate. rewrite Hnone. unfold alloc.
        cbn [m_preferences]. now rewrite Hprefs. }
      exists st1. split; [reflexivity|].
      split; [apply same_but_object_refl|exact Hp]. }
  exists st'. cbv zeta. fold p.
  split; [exact Hcall|]. split; [apply load_fresh|].
  split; [exact S1|]. split; [exact S2|]. split; [exact Hload|].
  split; [intros q Hne; now rewrite S4, Hq|].
  split.
  - rewrite S1. apply map_insert_ordered, Hok.
  - intros id' p' Hin. rewrite S1 in Hin.
    apply map_In_insert in Hin as [[= -> ->]|Hin].
    + eexists. split; [exact Hload|].
      destruct (m_preferences st); [|apply UniverseId_new].
      now rewrite UniverseId_restore, UniverseId_new.
    + destruct (proj2 Hok _ _ Hin) as (u & Hu & Hid).
      exists u. split; trivial.
      assert (p' <> p) as Hne.
      { intros ->. unfold p in Hu. now rewrite load_fresh in Hu. }
      now rewrite S4, Hq.
Qed.

(** [DeleteUniverseIfInactive] on a universe of the store that is not
    active, with preferences. *)
Lemma DeleteUniverseIfInactive_inactive st p u prefs :
  load (objects st) p = Some u -> IsActive u = false ->
  m_preferences st = Some prefs ->
  DeleteUniverseIfInactive (Some p) st
  = Some (true,
          {| m_universe_map := StdMap.erase (UniverseId u) (m_universe_map st);
             m_preferences :=
               Some (SetValue (merge_key (UniverseId u))
                              (mode_text (MergeMode u))
                              (SetValue (name_key (UniverseId u)) (Name u)
                                        prefs));
             objects := write (objects st) p None |}).
Proof.
  intros Hu Hact Hprefs. unfold DeleteUniverseIfInactive, seq, deref.
  rewrite Hu, Hact. cbv beta iota. rewrite Hu. unfold set_map.
  rewrite (SaveUniverseSettings_spec _ p u prefs) by trivial.
  unfold delete, ret. cbn [objects m_universe_map m_preferences].
  now rewrite Hu.
Qed.

(** The objects of two entries with different keys are not the same
    object. *)
Lemma distinct_objects (h : memory U) (id id' : Z) p p' u u' :
  load h p = Some u -> UniverseId u = id ->
  load h p' = Some u' -> UniverseId u' = id' ->
  id <> id' -> p <> p'.
Proof. intros Hu <- Hu' <- Hne ->. congruence. Qed.

Lemma DeleteAll_loop_spec (entries : list (Z * pointer)) :
  forall st prefs,
  m_preferences st = Some prefs ->
  NoDup (map fst entries) ->
  (forall id p, In (id, p) entries ->
                exists u, load (objects st) p = Some u /\ UniverseId u = id) ->
  exists st' prefs',
    DeleteAll_loop entries st = Some (tt, st')
    /\ m_universe_map st' = m_universe_map st
    /\ m_preferences st' = Some prefs'
    /\ (forall id p, In (id, p) entries -> load (objects st') p = None)
    /\ (forall q, (forall id, ~ In (id, q) entries) ->
                  load (objects st') q = load (objects st) q)
    /\ (forall id p u,
           In (id, p) entries -> load (objects st) p = Some u ->
           GetValue prefs' (name_key id) = Name u
           /\ GetValue prefs' (merge_key id) = mode_text (MergeMode u))
    /\ (forall key,
           (forall id p, In (id, p) entries ->
                         key <> name_key id /\ key <> merge_key id) ->
           GetValue prefs' key = GetValue prefs key).
Proof.
  induction entries as [|[id1 p1] rest IH]; intros st prefs Hprefs Hnd Hlive.
  - exists st, prefs. cbn [DeleteAll_loop]. unfold ret.
    repeat split; trivial; intros; contradiction.
  - cbn [map fst] in Hnd. inversion Hnd as [|? ? Hnotin Hnd']; subst.
    destruct (Hlive id1 p1 (or_introl eq_refl)) as (u1 & Hu1 & Hid1).
    assert (forall id p, In (id, p) rest -> id <> id1 /\ p <> p1) as Hrest.
    { intros id p Hin.
      assert (id <> id1) as Hne.
      { intros ->. apply Hnotin. change id1 with (fst (id1, p)).
        now apply in_map. }
      split; trivial.
      destruct (Hlive id p (or_intror Hin)) as (u & Hu & Hid).
      now apply (distinct_objects (objects st) id id1 p p1 u u1). }
    set (prefs_a := SetValue (merge_key id1) (mode_text (MergeMode u1))
                             (SetValue (name_key id1) (Name u1) prefs)).
    set (st_b := {| m_universe_map := m_universe_map st;
                    m_preferences := Some prefs_a;
                    objects := write (objects st) p1 None |}).
    assert (seq (SaveUniverseSettings (Some p1))
                (fun _ => seq (delete p1) (fun _ => DeleteAll_loop rest)) st
            = DeleteAll_loop rest st_b) as Hstep.
    { unfold seq at 1.
      rewrite (SaveUniverseSettings_spec st p1 u1 prefs) by trivial.
      unfold seq, delete. cbn [objects m_universe_map m_preferences].
      rewrite Hu1, Hid1. reflexivity. }
    cbn [DeleteAll_loop]. rewrite Hstep.
    destruct (IH st_b prefs_a eq_refl Hnd') as
        (st' & prefs' & Hloop & Hmap & Hp' & Hdead & Hother & Hsaved & Hkeys).
    { intros id p Hin. destruct (Hrest id p Hin) as [_ Hp].
      destruct (Hlive id p (or_intror Hin)) as (u & Hu & Hid).
      exists u. split; trivial. cbn [st_b objects].
      rewrite load_write_other; trivial. congruence. }
    assert (forall id, ~ In (id, p1) rest) as Hp1.
    { intros id Hin. now destruct (Hrest id p1 Hin). }
    assert (forall key, key <> name_key id1 -> key <> merge_key id1 ->
                        GetValue prefs_a key = GetValue prefs key) as Hprefs_a.
    { intros key N1 N2. unfold prefs_a.
      rewrite !GetValue_SetValue_other; trivial; congruence. }
    exists st', prefs'. split; [exact Hloop|]. split; [exact Hmap|].
    split; [exact Hp'|]. split; [|split; [|split]].
    + intros id p [[= -> ->]|Hin]; [|now apply Hdead with id].
      rewrite Hother by trivial. cbn [st_b objects].
      apply load_write. now apply load_live with u1.
    + intros q Hq. rewrite Hother.
      * cbn [st_b objects]. apply load_write_other.
        intros ->. apply (Hq id1). now left.
      * intros id Hin. apply (Hq id). now right.
    + intros id p u [[= -> ->]|Hin] Hu.
      * assert (u = u1) as -> by congruence.
        assert (GetValue prefs' (name_key id)
                = GetValue prefs_a (name_key id)) as Hn.
        { apply Hkeys. intros id' p' Hin.
          destruct (Hrest id' p' Hin) as [Hne _]. split.
          - intros E. apply name_key_inj in E. congruence.
          - apply name_key_not_merge_key. }
        assert (GetValue prefs' (merge_key id)
                = GetValue prefs_a (merge_key id)) as Hm.
        { apply Hkeys. intros id' p' Hin.
          destruct (Hrest id' p' Hin) as [Hne _]. split.
          - intros E. symmetry in E. now apply name_key_not_merge_key in E.
          - intros E. apply merge_key_inj in E. congruence. }
        rewrite Hn, Hm. unfold prefs_a. split.
        -- rewrite GetValue_SetValue_other, GetValue_SetValue; trivial.
           intros E. symmetry in E. now apply name_key_not_merge_key in E.
        -- now rewrite GetValue_SetValue.
      * destruct (Hrest id p Hin) as [_ Hp].
        apply (Hsaved id p u Hin). cbn [st_b objects].
        rewrite load_write_other; trivial. congruence.
    + intros key Hkey. rewrite Hkeys.
      * destruct (Hkey id1 p1 (or_introl eq_refl)). now apply Hprefs_a.
      * intros id p Hin. apply (Hkey id p). now right.
Qed.

(** The store after the universe under [id] was taken out of the map and
    deleted. *)
Lemma store_ok_erase st id p (prefs' : option P) :
  store_ok st -> GetUniverse id st = Some p ->
  store_ok {| m_universe_map := StdMap.erase id (m_universe_map st);
              m_preferences := prefs';
              objects := write (objects st) p None |}.
Proof.
  intros Hok Hf. split; cbn [m_universe_map objects].
  - apply erase_ordered, Hok.
  - intros id' p' Hin.
    assert (id' <> id) as Hne.
    { intros ->. apply find_In in Hin; [|apply erase_ordered, Hok].
      rewrite find_erase in Hin; [discriminate|apply Hok]. }
    apply In_erase in Hin.
    destruct (proj2 Hok _ _ Hin) as (u' & Hu' & Hid').
    exists u'. split; trivial. rewrite load_write_other; trivial.
    intros ->. apply Hne. apply (GetUniverse_inj st id' id p'); trivial.
    now apply GetUniverse_In.
Qed.

Lemma ordered_keys_NoDup (m : StdMap.t pointer) :
  StdMap.ordered m -> NoDup (map fst m).
Proof.
  unfold StdMap.ordered. generalize (map fst m). intros keys.
  induction 1 as [|k keys Hs IH Hk]; constructor; trivial.
  intros Hin. rewrite Forall_forall in Hk. specialize (Hk _ Hin). lia.
Qed.

(** The pointers of an ordered map of live universes, in the order of the
    map, are in increasing order of the ids of their universes. *)
Lemma pointers_by_id (h : memory U) (entries : list (Z * pointer)) :
  StdMap.ordered entries ->
  (forall id p, In (id, p) entries ->
                exists u, load h p = Some u /\ UniverseId u = id) ->
  StronglySorted
    (fun p q => exists u v, load h p = Some u /\ load h q = Some v
                            /\ (UniverseId u < UniverseId v)%Z)
    (map snd entries).
Proof.
  induction entries as [|[id p] rest IH]; intros Ho Hlive; cbn [map snd].
  - constructor.
  - apply map_ordered_inv in Ho as [Ho Hlt]. constructor.
    + apply IH; trivial. intros id' p' Hin. apply Hlive. now right.
    + apply Forall_forall. intros q Hq.
      apply in_map_iff in Hq as ([id' q'] & <- & Hin). cbn [snd].
      destruct (Hlive id p (or_introl eq_refl)) as (u & Hu & Hid).
      destruct (Hlive id' q' (or_intror Hin)) as (v & Hv & Hid').
      exists u, v. repeat split; trivial. rewrite Hid, Hid'.
      now apply Hlt with q'.
Qed.

End Store.

End StoreLemmas.

(** ** The store seen from its callers *)

Module UniverseStoreProperties.
Import lla StdMapFacts MemoryFacts StoreFacts StoreLemmas.

#[export] Instance PlainUniverse_laws : UniverseLaws PlainUniverse.
Proof. split; reflexivity. Qed.

#[export] Instance PlainPreferences_laws : PreferencesLaws PlainPreferences.
Proof.
  split; intros; cbn [GetValue SetValue PlainPreferences_class plain_get].
  - now rewrite String.eqb_refl.
  - now rewrite (proj2 (String.eqb_neq key key')).
Qed.

Lemma one_universe_ok : store_ok one_universe.
Proof.
  split.
  - apply map_orderedb_ordered. reflexivity.
  - intros id p [[= <- <-]|[]]. exists studio. now split.
Qed.

Section Store.
Context {U P : Type} `{UniverseLaws U} `{PreferencesLaws P}.
Implicit Types (st : UniverseStore U P) (p q : pointer) (u : U).

(** X12: [GetUniverseOrCreate] for an id that the store does not hold
    returns a pointer to a new object, never [NULL]; afterwards
    [GetUniverse] finds that pointer under the id, the object has this id,
    the other ids and the other objects are as before, and the store
    still has every entry pointing to a live universe of the key's id. *)
Theorem GetUniverseOrCreate_creates st (id : Z) :
  store_ok st -> GetUniverse id st = None ->
  exists p st',
    GetUniverseOrCreate id st = Some (Some p, st')
    /\ load (objects st) p = None
    /\ GetUniverse id st' = Some p
    /\ (forall id', id' <> id -> GetUniverse id' st' = GetUniverse id' st)
    /\ (exists u, load (objects st') p = Some u /\ UniverseId u = id)
    /\ (forall q, q <> p -> load (objects st') q = load (objects st) q)
    /\ m_preferences st' = m_preferences st
    /\ store_ok st'.
Proof.
  intros Hok Hnone.
  destruct (GetUniverseOrCreate_new st id Hok Hnone)
    as (st' & Hcall & Hfresh & Hmap & Hprefs & Hload & Hothers & Hok').
  exists (List.length (objects st)), st'.
  split; [exact Hcall|]. split; [exact Hfresh|]. split; [|split; [|split]].
  - unfold GetUniverse. rewrite Hmap. now apply find_insert.
  - intros id' Hne. unfold GetUniverse. rewrite Hmap.
    now apply find_insert_other.
  - eexists. split; [exact Hload|].
    destruct (m_preferences st); [|apply UniverseId_new].
    now rewrite UniverseId_restore, UniverseId_new.
  - now split.
Qed.

(** X13: [GetUniverseOrCreate] always returns a pointer; a second call
    for the same id returns the same pointer and changes nothing; for an
    id that the store holds already the first call changes nothing
    either. *)
Theorem GetUniverseOrCreate_idempotent st (id : Z) :
  store_ok st ->
  exists p st',
    GetUniverseOrCreate id st = Some (Some p, st')
    /\ GetUniverseOrCreate id st' = Some (Some p, st')
    /\ GetUniverse id st' = Some p
    /\ store_ok st'
    /\ (forall q, GetUniverse id st = Some q -> p = q /\ st' = st).
Proof.
  intros Hok. destruct (GetUniverse id st) as [q|] eqn:Hf.
  - exists q, st. unfold GetUniverseOrCreate. rewrite Hf.
    split; [reflexivity|]. split; [reflexivity|]. split; [reflexivity|].
    split; [exact Hok|]. intros q' [= ->]. now split.
  - destruct (GetUniverseOrCreate_new st id Hok Hf)
      as (st' & Hcall & _ & Hmap & _ & _ & _ & Hok').
    assert (GetUniverse id st' = Some (List.length (objects st))) as Hf'.
    { unfold GetUniverse. rewrite Hmap. now apply find_insert. }
    exists (List.length (objects st)), st'.
    split; [exact Hcall|]. split; [|split; [exact Hf'|split; trivial]].
    + unfold GetUniverseOrCreate. now rewrite Hf'.
    + discriminate.
Qed.

(** X14: [DeleteUniverseIfInactive] on a universe of the store, with
    preferences.  An active universe is kept: the call returns false and
    changes nothing.  An inactive one is removed: the call returns true,
    [GetUniverse] no longer finds its id, the object is deleted, the name
    and the merge mode are in the preferences under the keys of the id,
    and the other ids and objects are as before. *)
Theorem DeleteUniverseIfInactive_behaviour st (id : Z) p u (prefs : P) :
  store_ok st -> GetUniverse id st = Some p ->
  load (objects st) p = Some u -> m_preferences st = Some prefs ->
  (IsActive u = true -> DeleteUniverseIfInactive (Some p) st = Some (false, st))
  /\ (IsActive u = false ->
      exists st' prefs',
        DeleteUniverseIfInactive (Some p) st = Some (true, st')
        /\ GetUniverse id st' = None
        /\ (forall id', id' <> id -> GetUniverse id' st' = GetUniverse id' st)
        /\ load (objects st') p = None
        /\ (forall q, q <> p -> load (objects st') q = load (objects st) q)
        /\ m_preferences st' = Some prefs'
        /\ GetValue prefs' (name_key id) = Name u
        /\ GetValue prefs' (merge_key id) = mode_text (MergeMode u)
        /\ store_ok st').
Proof.
  intros Hok Hf Hu Hprefs.
  assert (UniverseId u = id) as Hid.
  { destruct (GetUniverse_live _ _ _ Hok Hf) as (u' & Hu' & Hid). congruence. }
  split.
  - intros Hact. unfold DeleteUniverseIfInactive, seq, deref.
    now rewrite Hu, Hact.
  - intros Hact.
    rewrite (DeleteUniverseIfInactive_inactive st p u prefs) by trivial.
    rewrite Hid. eexists. eexists. split; [reflexivity|].
    cbn [m_universe_map m_preferences objects]. unfold GetUniverse.
    cbn [m_universe_map].
    split; [apply find_erase, Hok|].
    split; [intros id' Hne; apply find_erase_other; [apply Hok|trivial]|].
    split; [apply load_write; now apply load_live with u|].
    split; [intros q Hne; apply load_write_other; congruence|].
    split; [reflexivity|]. split; [|split].
    + rewrite GetValue_SetValue_other, GetValue_SetValue; trivial.
      intros E. symmetry in E. now apply name_key_not_merge_key in E.
    + now rewrite GetValue_SetValue.
    + now apply store_ok_erase.
Qed.

(** X15: the settings of a universe survive its deletion: when an
    inactive universe is deleted and [GetUniverseOrCreate] is then called
    for its id, the new universe has the id and the merge mode of the old
    one, and its name unless that name was empty, in which case it keeps
    the name the constructor gave it. *)
Theorem settings_survive_deletion st (id : Z) p u (prefs : P) :
  store_ok st -> GetUniverse id st = Some p ->
  load (objects st) p = Some u -> m_preferences st = Some prefs ->
  IsActive u = false ->
  exists st1 st2 q u2,
    DeleteUniverseIfInactive (Some p) st = Some (true, st1)
    /\ GetUniverseOrCreate id st1 = Some (Some q, st2)
    /\ load (objects st2) q = Some u2
    /\ UniverseId u2 = id
    /\ MergeMode u2 = MergeMode u
    /\ Name u2 = (if Name u =? "" then Name (Universe_new id) else Name u).
Proof.
  intros Hok Hf Hu Hprefs Hact.
  assert (UniverseId u = id) as Hid.
  { destruct (GetUniverse_live _ _ _ Hok Hf) as (u' & Hu' & Hid). congruence. }
  rewrite (DeleteUniverseIfInactive_inactive st p u prefs) by trivial.
  rewrite Hid.
  set (prefs1 := SetValue (merge_key id) (mode_text (MergeMode u))
                          (SetValue (name_key id) (Name u) prefs)).
  set (st1 := {| m_universe_map := StdMap.erase id (m_universe_map st);
                 m_preferences := Some prefs1;
                 objects := write (objects st) p None |}).
  assert (store_ok st1) as Hok1 by now apply store_ok_erase.
  assert (GetUniverse id st1 = None) as Hf1 by apply find_erase, Hok.
  destruct (GetUniverseOrCreate_new st1 id Hok1 Hf1)
    as (st2 & Hcall & _ & _ & _ & Hload & _ & _).
  cbn [st1 m_preferences] in Hload.
  assert (GetValue prefs1 (merge_key id) = mode_text (MergeMode u)) as Em
      by apply GetValue_SetValue.
  assert (GetValue prefs1 (name_key id) = Name u) as En.
  { unfold prefs1.
    rewrite GetValue_SetValue_other, GetValue_SetValue; trivial.
    intros E. symmetry in E. now apply name_key_not_merge_key in E. }
  rewrite Em, En in Hload.
  exists st1, st2. eexists. eexists.
  split; [reflexivity|]. split; [exact Hcall|]. split; [exact Hload|].
  split; [now rewrite UniverseId_restore, UniverseId_new|].
  apply restore_saved.
Qed.

(** X16: [SaveUniverseSettings] writes the name and the merge mode of the
    universe under the two keys of its id and leaves what the preferences
    hold under the keys of every other id, the map and the objects as
    they are. *)
Theorem SaveUniverseSettings_own_keys st p u (prefs : P) :
  m_preferences st = Some prefs -> load (objects st) p = Some u ->
  exists st' prefs',
    SaveUniverseSettings (Some p) st = Some (0%Z, st')
    /\ m_preferences st' = Some prefs'
    /\ m_universe_map st' = m_universe_map st
    /\ objects st' = objects st
    /\ GetValue prefs' (name_key (UniverseId u)) = Name u
    /\ GetValue prefs' (merge_key (UniverseId u)) = mode_text (MergeMode u)
    /\ (forall id', id' <> UniverseId u ->
          GetValue prefs' (name_key id') = GetValue prefs (name_key id')
          /\ GetValue prefs' (merge_key id') = GetValue prefs (merge_key id')).
Proof.
  intros Hprefs Hu. rewrite (SaveUniverseSettings_spec st p u prefs) by trivial.
  eexists. eexists. split; [reflexivity|].
  cbn [m_preferences m_universe_map objects].
  split; [reflexivity|]. split; [reflexivity|]. split; [reflexivity|].
  split; [|split].
  - rewrite GetValue_SetValue_other, GetValue_SetValue; trivial.
    intros E. symmetry in E. now apply name_key_not_merge_key in E.
  - now rewrite GetValue_SetValue.
  - intros id' Hne. split; rewrite !GetValue_SetValue_other; trivial.
    + intros E. apply name_key_inj in E. congruence.
    + intros E. symmetry in E. now apply name_key_not_merge_key in E.
    + apply name_key_not_merge_key.
    + intros E. apply merge_key_inj in E. congruence.
Qed.

(** X17: [DeleteAll] on a store with preferences returns 0 and leaves the
    map empty; every universe that was in the store is deleted, and its
    name and merge mode are in the preferences under the keys of its
    id. *)
Theorem DeleteAll_behaviour st (prefs : P) :
  store_ok st -> m_preferences st = Some prefs ->
  exists st' prefs',
    DeleteAll st = Some (0%Z, st')
    /\ m_universe_map st' = []
    /\ (forall id, GetUniverse id st' = None)
    /\ GetList st' = []
    /\ m_preferences st' = Some prefs'
    /\ (forall id p u,
           GetUniverse id st = Some p -> load (objects st) p = Some u ->
           load (objects st') p = None
           /\ GetValue prefs' (name_key id) = Name u
           /\ GetValue prefs' (merge_key id) = mode_text (MergeMode u))
    /\ store_ok st'.
Proof.
  intros Hok Hprefs.
  destruct (DeleteAll_loop_spec (m_universe_map st) st prefs Hprefs)
    as (st1 & prefs' & Hloop & Hmap & Hp' & Hdead & _ & Hsaved & _).
  { apply ordered_keys_NoDup, Hok. }
  { apply Hok. }
  exists {| m_universe_map := []; m_preferences := m_preferences st1;
            objects := objects st1 |}, prefs'.
  split; [unfold DeleteAll, seq; now rewrite Hloop|].
  cbn [m_universe_map m_preferences objects].
  split; [reflexivity|]. split; [reflexivity|]. split; [reflexivity|].
  split; [exact Hp'|]. split.
  - intros id p u Hf Hu. apply GetUniverse_In in Hf; trivial.
    split; [now apply Hdead with id|now apply Hsaved with p].
  - split; [constructor|intros id p []].
Qed.

(** X18: [GetList] gives one pointer for each entry of the map: exactly
    the pointers that [GetUniverse] finds, each once, in increasing order
    of the ids of their universes. *)
Theorem GetList_in_id_order st :
  store_ok st ->
  List.length (GetList st) = List.length (m_universe_map st)
  /\ (forall p, In p (GetList st) <-> exists id, GetUniverse id st = Some p)
  /\ NoDup (GetList st)
  /\ StronglySorted
       (fun p q => exists u v,
            load (objects st) p = Some u /\ load (objects st) q = Some v
            /\ (UniverseId u < UniverseId v)%Z)
       (GetList st).
Proof.
  intros Hok. unfold GetList.
  assert (StronglySorted
            (fun p q => exists u v,
                 load (objects st) p = Some u /\ load (objects st) q = Some v
                 /\ (UniverseId u < UniverseId v)%Z)
            (map snd (m_universe_map st))) as Hsorted
      by (apply pointers_by_id; apply Hok).
  split; [apply length_map|]. split; [|split; [|exact Hsorted]].
  - intros p. rewrite in_map_iff. split.
    + intros ([id p'] & <- & Hin). exists id. now apply GetUniverse_In.
    + intros (id & Hf). exists (id, p). split; trivial.
      now apply GetUniverse_In.
  - induction Hsorted as [|p l Hl IH Hp]; constructor; trivial.
    intros Hin. rewrite Forall_forall in Hp.
    destruct (Hp _ Hin) as (u & v & Hu & Hv & Hlt).
    assert (u = v) by congruence. subst. lia.
Qed.

(** X19: a store whose [m_preferences] is [NULL].  [GetUniverseOrCreate]
    tests the pointer: it creates the universe and leaves it as the
    constructor made it.  The other member functions do not test it:
    saving or restoring the settings of a universe, deleting an inactive
    universe and [DeleteAll] on a store that holds a universe dereference
    the [NULL] pointer; an active universe is still kept. *)
Theorem store_without_preferences st :
  m_preferences st = None ->
  (forall id,
      store_ok st -> GetUniverse id st = None ->
      exists p st',
        GetUniverseOrCreate id st = Some (Some p, st')
        /\ load (objects st') p = Some (Universe_new id)
        /\ m_preferences st' = None)
  /\ (forall p u,
         load (objects st) p = Some u ->
         SaveUniverseSettings (Some p) st = None
         /\ RestoreUniverseSettings (Some p) st = None
         /\ (IsActive u = false -> DeleteUniverseIfInactive (Some p) st = None)
         /\ (IsActive u = true ->
             DeleteUniverseIfInactive (Some p) st = Some (false, st)))
  /\ (store_ok st -> m_universe_map st <> [] -> DeleteAll st = None).
Proof.
  intros Hprefs.
  assert (forall st' p u,
             m_preferences st' = None -> load (objects st') p = Some u ->
             SaveUniverseSettings (Some p) st' = None) as Hsave.
  { intros st' p u Hp Hu.
    unfold SaveUniverseSettings, seq, deref, preferences_set.
    rewrite Hu. cbv beta iota. rewrite Hu. cbv beta iota. now rewrite Hp. }
  split; [|split].
  - intros id Hok Hnone.
    destruct (GetUniverseOrCreate_new st id Hok Hnone)
      as (st' & Hcall & _ & _ & Hp & Hload & _ & _).
    rewrite Hprefs in Hload. eexists. exists st'.
    split; [exact Hcall|]. split; [exact Hload|]. congruence.
  - intros p u Hu. split; [now apply Hsave with u|]. split; [|split].
    + unfold RestoreUniverseSettings, seq, deref, preferences_get.
      rewrite Hu. cbv beta iota. now rewrite Hprefs.
    + intros Hact. unfold DeleteUniverseIfInactive, seq, deref.
      rewrite Hu, Hact. cbv beta iota. rewrite Hu. unfold set_map.
      now rewrite (Hsave _ p u).
    + intros Hact. unfold DeleteUniverseIfInactive, seq, deref.
      now rewrite Hu, Hact.
  - intros Hok Hne. unfold DeleteAll, seq.
    destruct (m_universe_map st) as [|[id p] rest] eqn:Hmap; [congruence|].
    destruct (proj2 Hok id p) as (u & Hu & _); [rewrite Hmap; now left|].
    cbn [DeleteAll_loop]. unfold seq. now rewrite (Hsave st p u).
Qed.

End Store.

Lemma GetUniverseOrCreate_creates_witness :
  store_ok one_universe /\ GetUniverse 3 one_universe = None
  /\ exists p st',
       GetUniverseOrCreate 3 one_universe = Some (Some p, st')
       /\ GetUniverse 3 st' = Some p.
Proof.
  split; [exact one_universe_ok|]. split; [reflexivity|].
  destruct (GetUniverseOrCreate_creates one_universe 3 one_universe_ok eq_refl)
    as (p & st' & Hcall & _ & Hfind & _).
  exists p, st'. now split.
Defined.

Lemma GetUniverseOrCreate_idempotent_witness :
  store_ok one_universe
  /\ exists p st',
       GetUniverseOrCreate 3 one_universe = Some (Some p, st')
       /\ GetUniverseOrCreate 3 st' = Some (Some p, st').
Proof.
  split; [exact one_universe_ok|].
  destruct (GetUniverseOrCreate_idempotent one_universe 3 one_universe_ok)
    as (p & st' & Hcall & Hagain & _).
  exists p, st'. now split.
Defined.

Lemma DeleteUniverseIfInactive_behaviour_witness :
  store_ok one_universe /\ GetUniverse 7 one_universe = Some 0%nat
  /\ load (objects one_universe) 0 = Some studio
  /\ m_preferences one_universe = Some []
  /\ IsActive studio = false
  /\ exists st' prefs',
       DeleteUniverseIfInactive (Some 0%nat) one_universe = Some (true, st')
       /\ GetUniverse 7 st' = None
       /\ m_preferences st' = Some prefs'
       /\ GetValue prefs' (name_key 7) = "studio".
Proof.
  split; [exact one_universe_ok|]. repeat (split; [reflexivity|]).
  destruct (proj2 (DeleteUniverseIfInactive_behaviour
                     one_universe 7 0%nat studio [] one_universe_ok
                     eq_refl eq_refl eq_refl) eq_refl)
    as (st' & prefs' & Hcall & Hgone & _ & _ & _ & Hprefs & Hname & _).
  exists st', prefs'. now repeat split.
Defined.

Lemma settings_survive_deletion_witness :
  store_ok one_universe /\ GetUniverse 7 one_universe = Some 0%nat
  /\ load (objects one_universe) 0 = Some studio
  /\ m_preferences one_universe = Some []
  /\ IsActive studio = false
  /\ exists st1 st2 q u2,
       DeleteUniverseIfInactive (Some 0%nat) one_universe = Some (true, st1)
       /\ GetUniverseOrCreate 7 st1 = Some (Some q, st2)
       /\ load (objects st2) q = Some u2
       /\ MergeMode u2 = MERGE_HTP /\ Name u2 = "studio".
Proof.
  split; [exact one_universe_ok|]. repeat (split; [reflexivity|]).
  destruct (settings_survive_deletion
              one_universe 7 0%nat studio [] one_universe_ok
              eq_refl eq_refl eq_refl eq_refl)
    as (st1 & st2 & q & u2 & Hdel & Hnew & Hload & _ & Hmode & Hname).
  exists st1, st2, q, u2. now repeat split.
Defined.

Lemma SaveUniverseSettings_own_keys_witness :
  m_preferences one_universe = Some []
  /\ load (objects one_universe) 0 = Some studio
  /\ exists st' prefs',
       SaveUniverseSettings (Some 0%nat) one_universe = Some (0%Z, st')
       /\ m_preferences st' = Some prefs'
       /\ GetValue prefs' (merge_key 7) = "HTP".
Proof.
  repeat (split; [reflexivity|]).
  destruct (SaveUniverseSettings_own_keys
              one_universe 0%nat studio [] eq_refl eq_refl)
    as (st' & prefs' & Hcall & Hprefs & _ & _ & _ & Hmode & _).
  exists st', prefs'. now repeat split.
Defined.

Lemma DeleteAll_behaviour_witness :
  store_ok one_universe /\ m_preferences one_universe = Some []
  /\ exists st',
       DeleteAll one_universe = Some (0%Z, st') /\ m_universe_map st' = [].
Proof.
  split; [exact one_universe_ok|]. split; [reflexivity|].
  destruct (DeleteAll_behaviour one_universe [] one_universe_ok eq_refl)
    as (st' & prefs' & Hcall & Hmap & _).
  exists st'. now split.
Defined.

Lemma two_universes_ok : store_ok two_universes.
Proof.
  split.
  - apply map_orderedb_ordered. reflexivity.
  - intros id p [[= <- <-]|[[= <- <-]|[]]].
    + exists stage. now split.
    + exists studio. now split.
Qed.

Lemma GetList_in_id_order_witness :
  store_ok two_universes
  /\ GetList two_universes = [1%nat; 0%nat]
  /\ NoDup (GetList two_universes)
  /\ (forall p, In p (GetList two_universes)
                <-> exists id, GetUniverse id two_universes = Some p)
  /\ StronglySorted
       (fun p q => exists u v,
            load (objects two_universes) p = Some u
            /\ load (objects two_universes) q = Some v
            /\ (UniverseId u < UniverseId v)%Z)
       (GetList two_universes).
Proof.
  split; [exact two_universes_ok|]. split; [reflexivity|].
  destruct (GetList_in_id_order two_universes two_universes_ok)
    as (_ & Hfound & Hnodup & Hsorted).
  split; [exact Hnodup|]. split; [exact Hfound|exact Hsorted].
Defined.

Lemma store_without_preferences_witness :
  m_preferences bare_store = None
  /\ load (objects bare_store) 0 = Some studio
  /\ SaveUniverseSettings (Some 0%nat) bare_store = None.
Proof.
  split; [reflexivity|]. split; [reflexivity|].
  destruct (store_without_preferences bare_store eq_refl) as (_ & H & _).
  exact (proj1 (H 0%nat studio eq_refl)).
Defined.

End UniverseStoreProperties.
